(** * neuron_explainer.api_client: retrying, gated, cached API client

    A shallow embedding of [src/neuron_explainer/api_client.py]:
    the error classifier [is_api_error], the decorator
    [exponential_backoff] and [ApiClient.make_request], followed by the
    properties of the specification that are settled against them.

    Conventions of the embedding.
    - A Python [str] or [bytes] value is a [string] (its UTF-8 bytes).
    - A payload value or a decoded body is a [json] value.  Numbers are
      integers; floating-point payload values are outside the model.
    - A Python [dict] with string keys is an association list in
      insertion order; the response cache, whose order is never
      observed, is a [gmap].
    - Delays are exact rationals ([Q]) in place of binary floats.
    - One call is followed at a time: an [await] runs to completion,
      and what the call itself does is recorded in the [trace] of the
      [World].  What other tasks do to the semaphore and to the cache
      while the call is suspended is not part of a [World]. *)

From Stdlib Require Import ZArith QArith Qminmax Lqa String Ascii List Bool Lia.
From Stdlib Require Import DecimalString DecimalZ DecimalPos.
From stdpp Require Import base gmap strings.
Import ListNotations.

Local Open Scope string_scope.
Local Open Scope Z_scope.
Set Warnings "-register-all".

(** ** Values *)

Inductive json : Type :=
| JNull
| JBool (b : bool)
| JInt (n : Z)
| JStr (s : string)
| JArr (items : list json)
| JObj (fields : list (string * json)).

(** A [dict] whose keys are strings: insertion-ordered fields. *)
Abbreviation dict := (list (string * json)).

(** [k in d] *)
Fixpoint dict_mem (k : string) (d : dict) : bool :=
  match d with
  | [] => false
  | (k', _) :: d' => if String.eqb k k' then true else dict_mem k d'
  end.

(** [d.get(k)], [None] when the key is absent. *)
Fixpoint dict_get (k : string) (d : dict) : option json :=
  match d with
  | [] => None
  | (k', v) :: d' => if String.eqb k k' then Some v else dict_get k d'
  end.

(** [d[k] = v]: an existing key keeps its position, a new key goes last. *)
Fixpoint dict_set (k : string) (v : json) (d : dict) : dict :=
  match d with
  | [] => [(k, v)]
  | (k', v') :: d' =>
      if String.eqb k k' then (k', v) :: d' else (k', v') :: dict_set k v d'
  end.

(** ** Responses and exceptions *)

(** The body of a response: it decodes as JSON; or it is some other
    text, for which [response.json()] raises [JSONDecodeError]; or its
    bytes are no valid Unicode text at all, for which the decoding
    inside [response.json()] raises [UnicodeDecodeError].  [RawBody]
    carries what [response.text] makes of such bytes. *)
Inductive Body : Type :=
| JsonBody (j : json)
| TextBody (text : string)
| RawBody (text : string).

Record Response : Type := mkResponse {
  status_code : Z;
  url : string;
  body : Body
}.

(** The exceptions the module distinguishes.  [TimeoutException] stands
    for httpx's whole timeout family, [JSONEncodeError] is what
    [orjson.dumps] raises, [OtherException] stands for every other
    class the classifier has no branch for. *)
Inductive exn : Type :=
| HTTPStatusError (response : Response)
| ConnectError (request_url : string)
| TimeoutException (request_url : string)
| ReadError (request_url : string)
| JSONDecodeError
| UnicodeDecodeError
| AttributeError
| JSONEncodeError
| OtherException (repr : string).

(** How an awaited call ends: it returns, it raises, or the task stays
    suspended on a semaphore that no one releases. *)
Inductive Outcome (A : Type) : Type :=
| Ok (a : A)
| Raise (e : exn)
| Blocked.
Arguments Ok {A} a.
Arguments Raise {A} e.
Arguments Blocked {A}.

(** Lines written by [print] and [traceback.print_tb]. *)
Inductive LogLine : Type :=
| RetryingAfterIdempotencyError (error_message : json) (u : string)
| RetryingAfterApiError (error_message : json) (u : string)
| RetryingAfterConnectionError (u : string)
| RetryingAfterTimeoutError (u : string)
| RetryingAfterReadError (u : string)
| RetryingAfterUnexpectedError (err : exn)
| Traceback (err : exn)
| ErrorResponseStatusCode (status : Z)
| ErrorResponseJson (j : json)
| CouldNotParseErrorResponse
| ErrorResponseText (text : string).

(** [response.json()] *)
Definition response_json (r : Response) : Outcome json :=
  match body r with
  | JsonBody j => Ok j
  | TextBody _ => Raise JSONDecodeError
  | RawBody _ => Raise UnicodeDecodeError
  end.

(** [response.text]; the source reads it only when the body did not
    decode. *)
Definition response_text (r : Response) : string :=
  match body r with
  | JsonBody _ => EmptyString
  | TextBody t => t
  | RawBody t => t
  end.

(** [x.get(k, default)] on an arbitrary decoded value: only a dict has
    the method. *)
Definition py_get (x : json) (k : string) (default : json) : Outcome json :=
  match x with
  | JObj d => Ok (match dict_get k d with Some v => v | None => default end)
  | _ => Raise AttributeError
  end.

(** [x == "idempotency_error"] *)
Definition is_idempotency_error (x : json) : bool :=
  match x with
  | JStr s => String.eqb s "idempotency_error"
  | _ => false
  end.

(** [status in [400, 404, 415]] *)
Definition invalid_request_status (status : Z) : bool :=
  existsb (Z.eqb status) [400; 404; 415].

(** ** The error classifier *)

(** [is_api_error(err)]: the lines it prints and how it ends. *)
Definition is_api_error (err : exn) : list LogLine * Outcome bool :=
  match err with
  | HTTPStatusError response =>
      match response_json response with
      | Ok j =>
          match py_get j "error" (JObj []) with
          | Ok error_data =>
              match py_get error_data "message" JNull with
              | Ok error_message =>
                  if invalid_request_status (status_code response) then
                    match py_get error_data "type" JNull with
                    | Ok ty =>
                        if is_idempotency_error ty then
                          ([RetryingAfterIdempotencyError error_message (url response)],
                           Ok true)
                        else ([], Ok false)
                    | Raise e => ([], Raise e)
                    | Blocked => ([], Blocked)
                    end
                  else
                    ([RetryingAfterApiError error_message (url response)], Ok true)
              | Raise e => ([], Raise e)
              | Blocked => ([], Blocked)
              end
          | Raise e => ([], Raise e)
          | Blocked => ([], Blocked)
          end
      | Raise e => ([], Raise e)
      | Blocked => ([], Blocked)
      end
  | ConnectError u => ([RetryingAfterConnectionError u], Ok true)
  | TimeoutException u => ([RetryingAfterTimeoutError u], Ok true)
  | ReadError u => ([RetryingAfterReadError u], Ok true)
  | _ => ([RetryingAfterUnexpectedError err; Traceback err], Ok true)
  end.

(** The [error.type] of a decoded body, when the body is an object whose
    [error] member is absent or is itself an object. *)
Definition error_type (b : Body) : option json :=
  match b with
  | JsonBody (JObj d) =>
      match dict_get "error" d with
      | None => Some JNull
      | Some (JObj e) =>
          Some (match dict_get "type" e with Some t => t | None => JNull end)
      | Some _ => None
      end
  | _ => None
  end.

(** ** Serialisation of a payload: [orjson.dumps]

    The library function, as its documentation describes its output on
    the values of [json]: compact, members in insertion order (the
    source passes no option, so keys are not sorted), strings quoted
    with the escapes of JSON. *)

Definition dquote : ascii := ascii_of_nat 34.
Definition backslash : ascii := ascii_of_nat 92.

Definition hex_digit (n : nat) : ascii :=
  ascii_of_nat (if (n <? 10)%nat then 48 + n else 87 + n).

(** One byte of a string as it appears between the quotes. *)
Definition escape_char (c : ascii) : string :=
  let n := nat_of_ascii c in
  if (n =? 34)%nat then String backslash (String dquote EmptyString)
  else if (n =? 92)%nat then String backslash (String backslash EmptyString)
  else if (n =? 8)%nat then String backslash "b"
  else if (n =? 9)%nat then String backslash "t"
  else if (n =? 10)%nat then String backslash "n"
  else if (n =? 12)%nat then String backslash "f"
  else if (n =? 13)%nat then String backslash "r"
  else if (n <? 32)%nat then
    String backslash
      ("u00" ++ String (hex_digit (n / 16)) (String (hex_digit (n mod 16)) EmptyString))
  else String c EmptyString.

Fixpoint escape (s : string) : string :=
  match s with
  | EmptyString => EmptyString
  | String c s' => escape_char c ++ escape s'
  end.

Definition quote (s : string) : string :=
  String dquote (escape s ++ String dquote EmptyString).

Definition string_of_Z (n : Z) : string :=
  NilZero.string_of_int (Z.to_int n).

Fixpoint dumps (v : json) : string :=
  match v with
  | JNull => "null"
  | JBool true => "true"
  | JBool false => "false"
  | JInt n => string_of_Z n
  | JStr s => quote s
  | JArr items => "[" ++ String.concat "," (List.map dumps items) ++ "]"
  | JObj fields =>
      "{" ++ String.concat ","
               (List.map (fun kv => quote (fst kv) ++ ":" ++ dumps (snd kv)) fields)
          ++ "}"
  end.

(** The bytes that [orjson.dumps(kwargs)] returns, when it returns. *)
Definition orjson_dumps (kwargs : dict) : string := dumps (JObj kwargs).

(** What [orjson.dumps] refuses among the values of [json]: an integer
    that does not fit 64 bits, signed or unsigned, and containers
    nested deeper than its recursion limit.  It then raises
    [JSONEncodeError], a [TypeError]. *)
Definition int_fits (n : Z) : bool :=
  (- 2 ^ 63 <=? n) && (n <=? 2 ^ 64 - 1).

(** The recursion limit of the serialiser, counted in containers, the
    payload itself being the first. *)
Definition RECURSION_LIMIT : nat := 255.

Fixpoint ints_fit (v : json) : bool :=
  match v with
  | JInt n => int_fits n
  | JArr items => forallb ints_fit items
  | JObj fields => forallb (fun kv => ints_fit (snd kv)) fields
  | _ => true
  end.

(** How deep the containers of a value nest; a scalar has depth 0. *)
Fixpoint depth (v : json) : nat :=
  match v with
  | JArr items => S (fold_right (fun x m => Nat.max (depth x) m) 0%nat items)
  | JObj fields =>
      S (fold_right (fun kv m => Nat.max (depth (snd kv)) m) 0%nat fields)
  | _ => 0%nat
  end.

Definition serializable (v : json) : bool :=
  ints_fit v && (depth v <=? RECURSION_LIMIT)%nat.

(** The call [orjson.dumps(kwargs)]: it returns the bytes or raises. *)
Definition orjson_dumps_call (kwargs : dict) : Outcome string :=
  if serializable (JObj kwargs) then Ok (orjson_dumps kwargs)
  else Raise JSONEncodeError.

(** *** Reading a serialisation back

    The inverse direction of the serialisation, used to show that it
    loses nothing. *)

Definition is_digit (c : ascii) : bool :=
  (48 <=? nat_of_ascii c)%nat && (nat_of_ascii c <=? 57)%nat.

Fixpoint all_digits (s : string) : bool :=
  match s with
  | EmptyString => true
  | String c s' => is_digit c && all_digits s'
  end.

(** What may follow a number: the end of the text or a byte that is
    not a digit. *)
Definition delimited (r : string) : Prop :=
  match r with
  | EmptyString => True
  | String c _ => is_digit c = false
  end.

Definition hex_value (c : ascii) : nat :=
  let n := nat_of_ascii c in if (n <? 58)%nat then (n - 48)%nat else (n - 87)%nat.

(** The inverse of [escape_char]: the first byte of a quoted string and
    what follows it. *)
Definition unescape_char (s : string) : option (ascii * string) :=
  match s with
  | EmptyString => None
  | String h t =>
      if (nat_of_ascii h =? 92)%nat then
        match t with
        | EmptyString => None
        | String e t' =>
            let n := nat_of_ascii e in
            if (n =? 34)%nat then Some (dquote, t')
            else if (n =? 92)%nat then Some (backslash, t')
            else if (n =? 98)%nat then Some (ascii_of_nat 8, t')
            else if (n =? 116)%nat then Some (ascii_of_nat 9, t')
            else if (n =? 110)%nat then Some (ascii_of_nat 10, t')
            else if (n =? 102)%nat then Some (ascii_of_nat 12, t')
            else if (n =? 114)%nat then Some (ascii_of_nat 13, t')
            else if (n =? 117)%nat then
              match t' with
              | String _ (String _ (String h1 (String h2 t''))) =>
                  Some (ascii_of_nat (16 * hex_value h1 + hex_value h2), t'')
              | _ => None
              end
            else None
        end
      else if (nat_of_ascii h =? 34)%nat then None
      else Some (h, t)
  end.

(** The constructor of a value, and the constructor a first byte
    announces. *)
Definition value_kind (v : json) : nat :=
  match v with
  | JNull => 1
  | JBool true => 2
  | JBool false => 3
  | JInt _ => 4
  | JStr _ => 5
  | JArr _ => 6
  | JObj _ => 7
  end.

Definition kind_of_head (c : ascii) : nat :=
  let n := nat_of_ascii c in
  if (n =? 110)%nat then 1
  else if (n =? 116)%nat then 2
  else if (n =? 102)%nat then 3
  else if (n =? 45)%nat || is_digit c then 4
  else if (n =? 34)%nat then 5
  else if (n =? 91)%nat then 6
  else if (n =? 123)%nat then 7
  else 0.

(** ** The retry decorator *)

Definition init_delay_s : Q := 1.0.
Definition max_delay_s : Q := 10.0.
Definition max_tries : nat := 200.
Definition backoff_multiplier : Q := 2.0.
Definition jitter : Q := 0.2.

(** What one call of the decorated function did: how it ended, the
    state it left, how many times the wrapped function was invoked and
    the durations passed to [asyncio.sleep], in order. *)
Record Run (St V : Type) : Type := mkRun {
  outcome : Outcome V;
  final : St;
  attempts : nat;
  slept : list Q
}.
Arguments mkRun {St V}.
Arguments outcome {St V}.
Arguments final {St V}.
Arguments attempts {St V}.
Arguments slept {St V}.

(** A draw lies in [[0, 1)]. *)
Definition unit_draw (u : Q) : bool := Qle_bool 0 u && negb (Qle_bool 1 u).

Section Backoff.
Context {St V : Type}.
(** [random.random()], a draw from [[0, 1)] *)
Variable random : St -> Q * St.
(** the effect of [await asyncio.sleep(d)] on the program state *)
Variable sleep : Q -> St -> St.
Variable retry_on : exn -> St -> Outcome bool * St.
Variable f : St -> Outcome V * St.

(** [random.uniform(a, b)], which is [a + (b - a) * random()] *)
Definition uniform (a b : Q) (s : St) : Q * St :=
  let (u, s') := random s in ((a + (b - a) * u)%Q, s').

Definition stop {A} (o : Outcome A) (s : St) : Run St A :=
  mkRun o s 1%nat [].

(** The body of [f_retry]: the [for] loop over the remaining indices
    of [range(max_tries)].  The decorated function returns [None]
    when the loop runs out. *)
Fixpoint retry_loop (idxs : list nat) (delay_s : Q) (s : St) : Run St (option V) :=
  match idxs with
  | [] => mkRun (Ok None) s 0%nat []
  | i :: rest =>
      match f s with
      | (Ok v, s1) => stop (Ok (Some v)) s1
      | (Blocked, s1) => stop Blocked s1
      | (Raise err, s1) =>
          match retry_on err s1 with
          | (Ok retry, s2) =>
              if negb retry || (i =? max_tries - 1)%nat then stop (Raise err) s2
              else
                let (jittered_delay, s3) :=
                  uniform (delay_s * (1 - jitter)) (delay_s * (1 + jitter)) s2 in
                let s4 := sleep jittered_delay s3 in
                let r :=
                  retry_loop rest (Qmin (delay_s * backoff_multiplier) max_delay_s) s4 in
                mkRun (outcome r) (final r) (S (attempts r)) (jittered_delay :: slept r)
          | (Raise err', s2) => stop (Raise err') s2
          | (Blocked, s2) => stop Blocked s2
          end
      end
  end.

Definition f_retry (s : St) : Run St (option V) :=
  retry_loop (seq 0 max_tries) init_delay_s s.

(** The state after one attempt and, when the attempt raised, its
    classification. *)
Definition classified (s : St) : St :=
  match f s with
  | (Raise err, s1) => snd (retry_on err s1)
  | (_, s1) => s1
  end.

(** The jittered delay drawn after a failed attempt made in state [s]
    with current delay [delay_s]. *)
Definition jittered (ds : Q * St) : Q * St :=
  uniform (fst ds * (1 - jitter)) (fst ds * (1 + jitter)) (classified (snd ds)).

(** A failed attempt that is retried, as a step on the pair of the
    current delay and the state: attempt, classification, jittered
    sleep, delay update. *)
Definition retried_attempt (ds : Q * St) : Q * St :=
  (Qmin (fst ds * backoff_multiplier) max_delay_s,
   sleep (fst (jittered ds)) (snd (jittered ds))).

(** The delay and the state before attempt number [k] (from 0), when
    every earlier attempt failed and was retried. *)
Definition before_attempt (k : nat) (s : St) : Q * St :=
  Nat.iter k retried_attempt (init_delay_s, s).

(** The attempt made in state [s] raises, and the classifier says
    retry. *)
Definition transient_failure (s : St) : bool :=
  match f s with
  | (Raise err, s1) =>
      match retry_on err s1 with
      | (Ok true, _) => true
      | _ => false
      end
  | _ => false
  end.

(** Every attempt the loop can make from [s] fails transiently. *)
Definition persistently_failing (s : St) : Prop :=
  forall k, (k < max_tries)%nat ->
    transient_failure (snd (before_attempt k s)) = true.

(** Every draw the loop makes from [s] lies in [[0, 1)]. *)
Definition draws_in_range (s : St) : Prop :=
  forall k, (k < max_tries)%nat ->
    (0 <= fst (random (classified (snd (before_attempt k s)))) < 1)%Q.

(** The two conditions above, checked along the run itself. *)
Fixpoint failing_from (n : nat) (ds : Q * St) : bool :=
  match n with
  | O => true
  | S n' => transient_failure (snd ds) && failing_from n' (retried_attempt ds)
  end.

Fixpoint draws_from (n : nat) (ds : Q * St) : bool :=
  match n with
  | O => true
  | S n' =>
      unit_draw (fst (random (classified (snd ds))))
      && draws_from n' (retried_attempt ds)
  end.
End Backoff.

(** [exponential_backoff(retry_on)(f)] *)
Definition exponential_backoff {St V} (random : St -> Q * St) (sleep : Q -> St -> St)
    (retry_on : exn -> St -> Outcome bool * St) (f : St -> Outcome V * St)
  : St -> Run St (option V) :=
  f_retry random sleep retry_on f.

(** ** The client and the world it runs in *)

(** [asyncio.Semaphore]: the number of free slots. *)
Record Semaphore : Type := mkSemaphore { _value : nat }.

Record ApiClient : Type := mkApiClient {
  model_name : string;
  base_api_url : string;
  override_api_key : option string;
  _concurrency_check : option Semaphore;
  _cache : option (gmap string json)
}.

Definition BASE_API_URL : string := "https://api.openai.com/v1".

(** [ApiClient.__init__] *)
Definition ApiClient_init (model_name : string) (max_concurrent : option nat)
    (cache : bool) (base_api_url : string) (override_api_key : option string)
  : ApiClient :=
  mkApiClient model_name base_api_url override_api_key
    (match max_concurrent with
     | Some n => Some (mkSemaphore n)
     | None => None
     end)
    (if cache then Some ∅ else None).

(** What [http_client.post(url, headers=..., json=...)] sends. *)
Record HttpRequest : Type := mkHttpRequest {
  req_url : string;
  req_headers : list (string * string);
  req_json : dict
}.

(** How the network answers a request: with a response of any status,
    or with an exception raised by the transport. *)
Inductive NetResult : Type :=
| Responded (r : Response)
| Failed (e : exn).

(** What the task does, in order. *)
Inductive Event : Type :=
| CacheLookup (key : string) (hit : bool)
| Acquire
| ClientOpen (timeout : option Z)
| Post (request : HttpRequest)
| ClientClose
| Release
| CacheStore (key : string) (value : json)
| Sleep (d : Q).

Record World : Type := mkWorld {
  (** the client object, [self] *)
  client : ApiClient;
  (** [os.getenv('OPENAI_API_KEY')] *)
  OPENAI_API_KEY : option string;
  (** the remote service: its answer to the n-th request sent *)
  remote : nat -> HttpRequest -> NetResult;
  posted : nat;
  (** the stream [random.random()] draws from *)
  entropy : nat -> Q;
  drawn : nat;
  trace : list Event;
  stdout : list LogLine
}.

Definition set_client (c : ApiClient) (w : World) : World :=
  mkWorld c (OPENAI_API_KEY w) (remote w) (posted w) (entropy w) (drawn w)
    (trace w) (stdout w).

Definition emit (e : Event) (w : World) : World :=
  mkWorld (client w) (OPENAI_API_KEY w) (remote w) (posted w) (entropy w) (drawn w)
    (trace w ++ [e]) (stdout w).

Definition print (ls : list LogLine) (w : World) : World :=
  mkWorld (client w) (OPENAI_API_KEY w) (remote w) (posted w) (entropy w) (drawn w)
    (trace w) (stdout w ++ ls).

Definition set_semaphore (s : Semaphore) (w : World) : World :=
  let c := client w in
  set_client (mkApiClient (model_name c) (base_api_url c) (override_api_key c)
                (Some s) (_cache c)) w.

Definition set_cache (m : gmap string json) (w : World) : World :=
  let c := client w in
  set_client (mkApiClient (model_name c) (base_api_url c) (override_api_key c)
                (_concurrency_check c) (Some m)) w.

(** [random.random()] *)
Definition random (w : World) : Q * World :=
  (entropy w (drawn w),
   mkWorld (client w) (OPENAI_API_KEY w) (remote w) (posted w) (entropy w)
     (S (drawn w)) (trace w) (stdout w)).

(** [await asyncio.sleep(d)], as far as the sleeping call is concerned:
    the time passes. *)
Definition sleep (d : Q) (w : World) : World := emit (Sleep d) w.

(** Entering the semaphore: take a slot, or stay suspended when none
    is free. *)
Definition acquire (sem : Semaphore) (w : World) : Outcome unit * World :=
  match _value sem with
  | O => (Blocked, w)
  | S n => (Ok tt, emit Acquire (set_semaphore (mkSemaphore n) w))
  end.

(** Leaving the semaphore: give the slot back. *)
Definition release (w : World) : World :=
  match _concurrency_check (client w) with
  | Some sem => emit Release (set_semaphore (mkSemaphore (S (_value sem))) w)
  | None => w
  end.

(** [await http_client.post(url, headers=api_http_headers, json=kwargs)] *)
Definition post (request : HttpRequest) (w : World) : Outcome Response * World :=
  let w1 := emit (Post request) w in
  let w2 := mkWorld (client w1) (OPENAI_API_KEY w1) (remote w1) (S (posted w1))
              (entropy w1) (drawn w1) (trace w1) (stdout w1) in
  match remote w (posted w) request with
  | Responded r => (Ok r, w2)
  | Failed e => (Raise e, w2)
  end.

(** The request headers built at the top of [make_request]; an unset
    environment variable is formatted as [None]. *)
Definition api_http_headers (w : World) : list (string * string) :=
  [("Content-Type", "application/json");
   ("Authorization",
    "Bearer " ++ match override_api_key (client w) with
                 | None => match OPENAI_API_KEY w with
                           | Some k => k
                           | None => "None"
                           end
                 | Some k => k
                 end)].

(** The endpoint chosen from the shape of the payload. *)
Definition endpoint (base : string) (kwargs : dict) : string :=
  base ++ (if dict_mem "messages" kwargs then "/chat/completions" else "/completions").

(** The payload as sent: the model name is assigned, then the response
    format when [json_mode] is truthy. *)
Definition outgoing (model : string) (json_mode : option bool) (kwargs : dict) : dict :=
  let kwargs := dict_set "model" (JStr model) kwargs in
  match json_mode with
  | Some true => dict_set "response_format" (JObj [("type", JStr "json_object")]) kwargs
  | _ => kwargs
  end.

Definition request_of (w : World) (json_mode : option bool) (kwargs : dict) : HttpRequest :=
  mkHttpRequest (endpoint (base_api_url (client w)) kwargs) (api_http_headers w)
    (outgoing (model_name (client w)) json_mode kwargs).

(** The [async with contextlib.AsyncExitStack()] block: the semaphore
    and the HTTP client are entered, the request is sent, and on the
    way out, whether [post] returned or raised, the client is closed
    and the slot released. *)
Definition dispatch (headers : list (string * string)) (timeout_seconds : option Z)
    (json_mode : option bool) (kwargs : dict) (w : World) : Outcome Response * World :=
  let entered :=
    match _concurrency_check (client w) with
    | Some sem => acquire sem w
    | None => (Ok tt, w)
    end in
  match entered with
  | (Ok _, w1) =>
      let w2 := emit (ClientOpen timeout_seconds) w1 in
      let request :=
        mkHttpRequest (endpoint (base_api_url (client w2)) kwargs) headers
          (outgoing (model_name (client w2)) json_mode kwargs) in
      let (response, w3) := post request w2 in
      (response, release (emit ClientClose w3))
  | (Raise e, w1) => (Raise e, w1)
  | (Blocked, w1) => (Blocked, w1)
  end.

(** [response.is_success]: a status from 200 to 299.  Every other
    status makes [raise_for_status] raise. *)
Definition is_success (r : Response) : bool :=
  (200 <=? status_code r) && (status_code r <=? 299).

(** The [try: response.raise_for_status()] block with its diagnostic
    prints. *)
Definition raise_for_status_logged (response : Response) (w : World)
  : Outcome unit * World :=
  if is_success response then (Ok tt, w)
  else
    let w1 := print [ErrorResponseStatusCode (status_code response)] w in
    let w2 :=
      match response_json response with
      | Ok j => print [ErrorResponseJson j] w1
      | _ => print [CouldNotParseErrorResponse; ErrorResponseText (response_text response)] w1
      end in
    (Raise (HTTPStatusError response), w2).

(** The body of [ApiClient.make_request], before decoration.  On a
    caching client the key is computed first, and the attempt ends
    there when [orjson.dumps] raises; the store at the end reuses the
    key of a lookup that went through. *)
Definition make_request_once (timeout_seconds : option Z) (json_mode : option bool)
    (kwargs : dict) (w : World) : Outcome json * World :=
  let headers := api_http_headers w in
  let key := orjson_dumps kwargs in
  let lookup :=
    match _cache (client w) with
    | Some cache =>
        match orjson_dumps_call kwargs with
        | Ok key =>
            match cache !! key with
            | Some v => (Ok (Some v), emit (CacheLookup key true) w)
            | None => (Ok None, emit (CacheLookup key false) w)
            end
        | Raise e => (Raise e, w)
        | Blocked => (Blocked, w)
        end
    | None => (Ok None, w)
    end in
  match lookup with
  | (Raise e, w0) => (Raise e, w0)
  | (Blocked, w0) => (Blocked, w0)
  | (Ok (Some v), w0) => (Ok v, w0)
  | (Ok None, w0) =>
      match dispatch headers timeout_seconds json_mode kwargs w0 with
      | (Ok response, w1) =>
          match raise_for_status_logged response w1 with
          | (Ok _, w2) =>
              match response_json response with
              | Ok j =>
                  match _cache (client w2) with
                  | Some cache => (Ok j, emit (CacheStore key j) (set_cache (<[key := j]> cache) w2))
                  | None => (Ok j, w2)
                  end
              | Raise e => (Raise e, w2)
              | Blocked => (Blocked, w2)
              end
          | (Raise e, w2) => (Raise e, w2)
          | (Blocked, w2) => (Blocked, w2)
          end
      | (Raise e, w1) => (Raise e, w1)
      | (Blocked, w1) => (Blocked, w1)
      end
  end.

(** [is_api_error] as the decorator calls it: its prints go to the
    standard output of the world. *)
Definition classify (err : exn) (w : World) : Outcome bool * World :=
  let (ls, o) := is_api_error err in (o, print ls w).

(** [ApiClient.make_request], decorated with
    [@exponential_backoff(retry_on=is_api_error)]. *)
Definition make_request (timeout_seconds : option Z) (json_mode : option bool)
    (kwargs : dict) : World -> Run World (option json) :=
  exponential_backoff random sleep classify
    (make_request_once timeout_seconds json_mode kwargs).

(** ** Observing a call *)

(** The client has a concurrency gate. *)
Definition gated (w : World) : bool :=
  match _concurrency_check (client w) with Some _ => true | None => false end.

(** The client has a cache. *)
Definition caching (w : World) : bool :=
  match _cache (client w) with Some _ => true | None => false end.

(** What an attempt, a classification, a draw or a sleep leaves as it
    found it: the configuration of the client, the environment, the
    remote, the source of randomness, the free slots of the gate and
    whether there is a cache. *)
Definition same_setting (w0 w : World) : Prop :=
  model_name (client w) = model_name (client w0) /\
  base_api_url (client w) = base_api_url (client w0) /\
  override_api_key (client w) = override_api_key (client w0) /\
  OPENAI_API_KEY w = OPENAI_API_KEY w0 /\
  remote w = remote w0 /\
  entropy w = entropy w0 /\
  _concurrency_check (client w) = _concurrency_check (client w0) /\
  caching w = caching w0.

(** The events one attempt can add to the trace of a client with or
    without cache and gate: none, when the key cannot be computed; a
    cache hit; a miss that finds no free slot; a miss followed by one
    request, sent between entering and leaving the gate and the HTTP
    client; the same followed by a store. *)
Definition lookup_miss (cached : bool) (key : string) : list Event :=
  if cached then [CacheLookup key false] else [].

Definition round_trip (gate : bool) (timeout : option Z) (request : HttpRequest)
  : list Event :=
  (if gate then [Acquire] else [])
  ++ [ClientOpen timeout; Post request; ClientClose]
  ++ (if gate then [Release] else []).

Inductive attempt_shape (cached gate : bool) (key : string) (timeout : option Z)
    (request : HttpRequest) : list Event -> Prop :=
| shape_unkeyed :
    cached = true ->
    attempt_shape cached gate key timeout request []
| shape_hit :
    cached = true ->
    attempt_shape cached gate key timeout request [CacheLookup key true]
| shape_blocked :
    gate = true ->
    attempt_shape cached gate key timeout request (lookup_miss cached key)
| shape_sent :
    attempt_shape cached gate key timeout request
      (lookup_miss cached key ++ round_trip gate timeout request)
| shape_stored (v : json) :
    cached = true ->
    attempt_shape cached gate key timeout request
      (lookup_miss cached key ++ round_trip gate timeout request ++ [CacheStore key v]).

(** The events of a whole call: attempts and sleeps. *)
Inductive call_shape (cached gate : bool) (key : string) (timeout : option Z)
    (request : HttpRequest) : list Event -> Prop :=
| call_nil : call_shape cached gate key timeout request []
| call_attempt (evs a : list Event) :
    call_shape cached gate key timeout request evs ->
    attempt_shape cached gate key timeout request a ->
    call_shape cached gate key timeout request (evs ++ a)
| call_sleep (evs : list Event) (d : Q) :
    call_shape cached gate key timeout request evs ->
    call_shape cached gate key timeout request (evs ++ [Sleep d]).

(** Where the task stands with respect to the gate. *)
Inductive Phase : Type := Idle | Holding | Opened | Sent | Closed.

(** The discipline of a gated client, as an automaton on events: a
    request is sent only inside acquire, open, post, close, release;
    lookups, stores and sleeps happen only with no slot held. *)
Definition gate_step (p : Phase) (e : Event) : option Phase :=
  match p, e with
  | Idle, Acquire => Some Holding
  | Holding, ClientOpen _ => Some Opened
  | Opened, Post _ => Some Sent
  | Sent, ClientClose => Some Closed
  | Closed, Release => Some Idle
  | Idle, CacheLookup _ _ => Some Idle
  | Idle, CacheStore _ _ => Some Idle
  | Idle, Sleep _ => Some Idle
  | _, _ => None
  end.

Fixpoint gate_run (p : Phase) (evs : list Event) : option Phase :=
  match evs with
  | [] => Some p
  | e :: evs' =>
      match gate_step p e with
      | Some p' => gate_run p' evs'
      | None => None
      end
  end.

(** The number of slots the task holds after the events [evs]. *)
Fixpoint held_after (evs : list Event) : Z :=
  match evs with
  | [] => 0
  | Acquire :: evs' => held_after evs' + 1
  | Release :: evs' => held_after evs' - 1
  | _ :: evs' => held_after evs'
  end.

(** The requests sent among the events [evs]. *)
Fixpoint posts (evs : list Event) : list HttpRequest :=
  match evs with
  | [] => []
  | Post request :: evs' => request :: posts evs'
  | _ :: evs' => posts evs'
  end.

(** What a call has done when it ends, whatever its outcome: the
    setting is the one it started in and the trace has grown by
    attempts and sleeps. *)
Definition call_progress (tm : option Z) (jm : option bool) (kw : dict)
    (w0 w : World) : Prop :=
  same_setting w0 w /\
  exists evs,
    trace w = (trace w0 ++ evs)%list /\
    call_shape (caching w0) (gated w0) (orjson_dumps kw) tm (request_of w0 jm kw) evs.

(** What holds before every attempt of a call whose key is not in the
    cache: the progress of the call, and the cache as it was. *)
Definition missing (tm : option Z) (jm : option bool) (kw : dict)
    (c : gmap string json) (w0 w : World) : Prop :=
  call_progress tm jm kw w0 w /\ _cache (client w) = Some c.

(** The delay the specification names for attempt [k]:
    [min(1.0 * 2^k, 10.0)]. *)
Definition nominal_delay (k : nat) : Q :=
  Qmin (1.0 * inject_Z (2 ^ Z.of_nat k)) 10.0.

(** ** Scenarios

    Concrete clients, payloads and remote behaviours on which the
    properties below are exercised.  The client and the payload are
    those of the module's own entry point. *)

Definition payload_main : dict :=
  [("prompt", JStr "Why did the chicken cross the road?"); ("max_tokens", JInt 9)].

Definition payload_main_reordered : dict :=
  [("max_tokens", JInt 9); ("prompt", JStr "Why did the chicken cross the road?")].

Definition payload_chat : dict :=
  [("messages", JArr [JObj [("role", JStr "user"); ("content", JStr "Hello")]])].

Definition client_main : ApiClient :=
  ApiClient_init "gpt-3.5-turbo" (Some 1%nat) false BASE_API_URL None.

Definition client_caching : ApiClient :=
  ApiClient_init "gpt-3.5-turbo" (Some 1%nat) true BASE_API_URL None.

Definition world_of (c : ApiClient) (remote : nat -> HttpRequest -> NetResult)
    (entropy : nat -> Q) : World :=
  mkWorld c (Some "sk-test") remote 0%nat entropy 0%nat [] [].

Definition error_body (ty : string) (n : nat) : Body :=
  JsonBody (JObj [("error", JObj [("type", JStr ty);
                                  ("message", JStr "request failed");
                                  ("attempt", JInt (Z.of_nat n))])]).

(** A remote that answers every request with 503 and a well-formed
    error body that numbers the request. *)
Definition remote_overloaded (n : nat) (request : HttpRequest) : NetResult :=
  Responded (mkResponse 503 (req_url request) (error_body "server_error" n)).

(** A remote that rejects every request as malformed. *)
Definition remote_bad_request (n : nat) (request : HttpRequest) : NetResult :=
  Responded (mkResponse 400 (req_url request) (error_body "invalid_request_error" n)).

(** A gateway in front of the remote that answers 502 with an HTML
    page. *)
Definition remote_bad_gateway (n : nat) (request : HttpRequest) : NetResult :=
  Responded (mkResponse 502 (req_url request) (TextBody "<html>502 Bad Gateway</html>")).

(** A remote that echoes the request body it was sent. *)
Definition remote_echo (n : nat) (request : HttpRequest) : NetResult :=
  Responded (mkResponse 200 (req_url request) (JsonBody (JObj (req_json request)))).

Definition entropy_half (n : nat) : Q := 0.5.

(** A caching client in front of the echoing remote. *)
Definition world_cached : World := world_of client_caching remote_echo entropy_half.

(** Every draw is one half, except the sixth, which is zero. *)
Definition entropy_dip (n : nat) : Q := if (n =? 5)%nat then 0 else 0.5.

(** ** Further observations and scenarios *)

(** The sum of the durations slept. *)
Definition total_sleep (l : list Q) : Q := fold_right Qplus 0%Q l.

(** A remote that is overloaded for the first three requests and then
    echoes. *)
Definition remote_flaky (n : nat) (request : HttpRequest) : NetResult :=
  if (n <? 3)%nat then remote_overloaded n request else remote_echo n request.

(** A remote that is overloaded for the first two requests and then
    rejects the request as malformed. *)
Definition remote_rejecting (n : nat) (request : HttpRequest) : NetResult :=
  if (n <? 2)%nat then remote_overloaded n request else remote_bad_request n request.

(** A remote that reports an idempotency error once, under status 400,
    and then echoes. *)
Definition remote_idempotency (n : nat) (request : HttpRequest) : NetResult :=
  if (n <? 1)%nat
  then Responded (mkResponse 400 (req_url request) (error_body "idempotency_error" n))
  else remote_echo n request.

(** The gate lets an attempt through: there is no gate, or a slot is
    free. *)
Definition free_slot (w : World) : bool :=
  match _concurrency_check (client w) with
  | Some sem => negb (_value sem =? 0)%nat
  | None => true
  end.

(** The response the cache holds for a payload, if any. *)
Definition cached_value (w : World) (kwargs : dict) : option json :=
  match _cache (client w) with
  | Some cache => cache !! orjson_dumps kwargs
  | None => None
  end.

(** The number of cache lookups among the events [evs]. *)
Fixpoint lookups (evs : list Event) : nat :=
  match evs with
  | [] => 0
  | CacheLookup _ _ :: evs' => S (lookups evs')
  | _ :: evs' => lookups evs'
  end.

(** A client whose gate has no slot. *)
Definition client_closed : ApiClient :=
  ApiClient_init "gpt-3.5-turbo" (Some 0%nat) true BASE_API_URL None.

(** A network that cannot connect. *)
Definition remote_unreachable (n : nat) (request : HttpRequest) : NetResult :=
  Failed (ConnectError (req_url request)).

(** A remote that is overloaded for the first two requests and then
    answers from a gateway, with a page that is not JSON. *)
Definition remote_gateway_down (n : nat) (request : HttpRequest) : NetResult :=
  if (n <? 2)%nat then remote_overloaded n request else remote_bad_gateway n request.

(** The cache entries written among the events [evs]. *)
Fixpoint stores (evs : list Event) : list (string * json) :=
  match evs with
  | [] => []
  | CacheStore k v :: evs' => (k, v) :: stores evs'
  | _ :: evs' => stores evs'
  end.

(** While a call has not returned, it has written nothing. *)
Definition unwritten (w0 w : World) : Prop :=
  same_setting w0 w /\
  exists evs, trace w = (trace w0 ++ evs)%list /\ stores evs = [].

(** A payload with a token count that does not fit 64 bits. *)
Definition payload_huge : dict :=
  [("prompt", JStr "Why did the chicken cross the road?");
   ("max_tokens", JInt (2 ^ 64))].

(** * Properties *)

(** ** The classifier *)

(** The rule table on a response whose body carries a readable
    [error.type]. *)
Lemma is_api_error_decoded (r : Response) (ty : json) :
  error_type (body r) = Some ty ->
  snd (is_api_error (HTTPStatusError r)) =
    Ok (if invalid_request_status (status_code r) then is_idempotency_error ty else true).
Proof.
  unfold error_type, is_api_error, response_json.
  destruct (body r) as [[| | | | |d]| |]; try discriminate.
  cbn [py_get]. destruct (dict_get "error" d) as [[| | | | |e]|]; try discriminate.
  - intros [= <-]. cbn [py_get].
    destruct (invalid_request_status (status_code r)); [|reflexivity].
    destruct (dict_get "type" e) as [t|]; [|reflexivity].
    destruct (is_idempotency_error t); reflexivity.
  - intros [= <-]. cbn [py_get dict_get is_idempotency_error].
    destruct (invalid_request_status (status_code r)); reflexivity.
Qed.

(** Failures that are not HTTP status errors are always retryable. *)
Lemma is_api_error_other (err : exn) :
  (forall r, err <> HTTPStatusError r) ->
  snd (is_api_error err) = Ok true.
Proof.
  destruct err; intros H; try reflexivity. now destruct (H response).
Qed.

(** ** The retry loop *)

Section BackoffFacts.
Context {St V : Type}.
Variable random : St -> Q * St.
Variable sleep : Q -> St -> St.
Variable retry_on : exn -> St -> Outcome bool * St.
Variable f : St -> Outcome V * St.

Local Abbreviation loop := (retry_loop random sleep retry_on f).
Local Abbreviation step := (retried_attempt random sleep retry_on f).

(** A first attempt that returns ends the call. *)
Lemma retry_loop_returns i rest d s v s1 :
  f s = (Ok v, s1) ->
  loop (i :: rest) d s = mkRun (Ok (Some v)) s1 1%nat [].
Proof. intros H. cbn. now rewrite H. Qed.

(** A first attempt that raises an error classified as fatal ends the
    call with that error. *)
Lemma retry_loop_fatal i rest d s err s1 s2 :
  f s = (Raise err, s1) ->
  retry_on err s1 = (Ok false, s2) ->
  loop (i :: rest) d s = mkRun (Raise err) s2 1%nat [].
Proof. intros H1 H2. cbn. now rewrite H1, H2. Qed.

(** A first attempt whose classification itself raises ends the call
    with the classifier's exception. *)
Lemma retry_loop_classifier_raises i rest d s err err' s1 s2 :
  f s = (Raise err, s1) ->
  retry_on err s1 = (Raise err', s2) ->
  loop (i :: rest) d s = mkRun (Raise err') s2 1%nat [].
Proof. intros H1 H2. cbn. now rewrite H1, H2. Qed.

(** One retried attempt unfolds the loop by one step. *)
Lemma retry_loop_retries i rest d s :
  transient_failure retry_on f s = true ->
  (i <> max_tries - 1)%nat ->
  let r := loop rest (fst (step (d, s))) (snd (step (d, s))) in
  loop (i :: rest) d s =
    mkRun (outcome r) (final r) (S (attempts r))
      (fst (jittered random retry_on f (d, s)) :: slept r).
Proof.
  unfold transient_failure, retried_attempt, jittered, classified.
  cbn [retry_loop fst snd].
  destruct (f s) as [[v|err|] s1]; try discriminate.
  destruct (retry_on err s1) as [[[|]|e'|] s2]; try discriminate.
  intros _ Hi. apply Nat.eqb_neq in Hi. rewrite Hi. cbn [negb orb snd].
  destruct (uniform random _ _ s2) as [j s3]. reflexivity.
Qed.

(** The last permitted attempt: a transient failure is raised as it
    is. *)
Lemma retry_loop_last rest d s :
  transient_failure retry_on f s = true ->
  exists err,
    fst (f s) = Raise err /\
    loop ((max_tries - 1)%nat :: rest) d s =
      mkRun (Raise err) (classified retry_on f s) 1%nat [].
Proof.
  unfold transient_failure, classified. cbn [retry_loop].
  destruct (f s) as [[v|err|] s1]; try discriminate.
  destruct (retry_on err s1) as [[[|]|e'|] s2]; try discriminate.
  intros _. exists err. split; [reflexivity|]. reflexivity.
Qed.

(** While the attempts fail transiently and the last index is not
    reached, the loop goes on: [k] such attempts add [k] invocations
    and [k] sleeps in front of what the rest of the loop does. *)
Lemma retry_loop_prefix k : forall i rest d s,
  (i + k < max_tries)%nat ->
  (forall j, (j < k)%nat ->
     transient_failure retry_on f (snd (Nat.iter j step (d, s))) = true) ->
  let r := loop rest (fst (Nat.iter k step (d, s))) (snd (Nat.iter k step (d, s))) in
  loop (seq i k ++ rest)%list d s =
    mkRun (outcome r) (final r) (k + attempts r)
      (List.map (fun j => fst (jittered random retry_on f (Nat.iter j step (d, s))))
         (seq 0 k) ++ slept r)%list.
Proof.
  induction k as [|k IH]; intros i rest d s Hi Hfail; cbn zeta.
  - change (Nat.iter 0 step (d, s)) with (d, s).
    cbn [seq app fst snd List.map Nat.add].
    now destruct (loop rest d s).
  - change (seq i (S k) ++ rest)%list with (i :: (seq (S i) k ++ rest)%list).
    rewrite retry_loop_retries;
      [| exact (Hfail 0%nat (Nat.lt_0_succ _)) | unfold max_tries in *; lia ].
    destruct (step (d, s)) as [d' s'] eqn:Hstep. cbn [fst snd].
    rewrite (IH (S i) rest d' s').
    + rewrite !Nat.iter_succ_r, Hstep. cbn [outcome final attempts slept].
      f_equal. change (seq 0 (S k)) with (0%nat :: seq 1 k).
      cbn [List.map app]. change (Nat.iter 0 step (d, s)) with (d, s).
      f_equal. f_equal.
      rewrite <- seq_shift, List.map_map.
      apply List.map_ext. intros j. now rewrite Nat.iter_succ_r, Hstep.
    + lia.
    + intros j Hj. rewrite <- Hstep, <- Nat.iter_succ_r. apply Hfail. lia.
Qed.
(** The loop under persistent transient failure, from any index. *)
Lemma retry_loop_failing n : forall i d s,
  (i + S n = max_tries)%nat ->
  (forall k, (k <= n)%nat ->
     transient_failure retry_on f (snd (Nat.iter k step (d, s))) = true) ->
  let r := loop (seq i (S n)) d s in
  let last := snd (Nat.iter n step (d, s)) in
  attempts r = S n /\
  slept r = List.map (fun k => fst (jittered random retry_on f (Nat.iter k step (d, s))))
              (seq 0 n) /\
  final r = classified retry_on f last /\
  exists err, fst (f last) = Raise err /\ outcome r = Raise err.
Proof.
  induction n as [|n IH]; intros i d s Hi Hfail.
  - assert (i = max_tries - 1)%nat as -> by (unfold max_tries in *; lia).
    destruct (retry_loop_last [] d s (Hfail 0%nat (Nat.le_refl _))) as (err & Herr & Hrun).
    cbn [seq Nat.iter snd]. change (seq _ 0) with (@nil nat). rewrite Hrun. cbn.
    repeat split; eauto.
  - change (seq i (S (S n))) with (i :: seq (S i) (S n)).
    rewrite retry_loop_retries;
      [| exact (Hfail 0%nat (Nat.le_0_l _)) | unfold max_tries in *; lia ].
    destruct (step (d, s)) as [d' s'] eqn:Hstep. cbn [fst snd].
    destruct (IH (S i) d' s') as (Ha & Hs & Hf & err & Herr & Ho).
    { lia. }
    { intros k Hk. rewrite <- Hstep, <- Nat.iter_succ_r. apply Hfail. lia. }
    cbn [attempts slept final outcome].
    rewrite Nat.iter_succ_r, Hstep.
    repeat split; [congruence| |exact Hf|exists err; split; assumption].
    rewrite Hs. change (seq 0 (S n)) with (0%nat :: seq 1 n).
    cbn [List.map Nat.iter]. f_equal.
    rewrite <- seq_shift, List.map_map.
    apply List.map_ext. intros k. now rewrite Nat.iter_succ_r, Hstep.
Qed.
End BackoffFacts.

(** *** The nominal delay *)

Lemma nominal_delay_next (d : Q) (k : nat) :
  (d == nominal_delay k)%Q ->
  (Qmin (d * backoff_multiplier) max_delay_s == nominal_delay (S k))%Q.
Proof.
  intros Hd. unfold nominal_delay, backoff_multiplier, max_delay_s in *.
  rewrite Nat2Z.inj_succ, Z.pow_succ_r by lia. rewrite inject_Z_mult.
  assert (0 < inject_Z (2 ^ Z.of_nat k))%Q as Hpos.
  { change 0%Q with (inject_Z 0). rewrite <- Zlt_Qlt. lia. }
  revert Hd Hpos. generalize (inject_Z (2 ^ Z.of_nat k)). intros p Hd Hpos.
  change (inject_Z 2) with 2%Q.
  destruct (Q.min_spec (1.0 * p) 10.0) as [[? E1]|[? E1]];
    destruct (Q.min_spec (d * 2.0) 10.0) as [[? E2]|[? E2]];
    destruct (Q.min_spec (1.0 * (2 * p)) 10.0) as [[? E3]|[? E3]];
    rewrite E1 in Hd; rewrite E2, E3; lra.
Qed.

Lemma nominal_delay_nondecreasing (k : nat) :
  (nominal_delay k <= nominal_delay (S k))%Q.
Proof.
  unfold nominal_delay.
  rewrite Nat2Z.inj_succ, Z.pow_succ_r by lia. rewrite inject_Z_mult.
  assert (0 < inject_Z (2 ^ Z.of_nat k))%Q as Hpos.
  { change 0%Q with (inject_Z 0). rewrite <- Zlt_Qlt. lia. }
  revert Hpos. generalize (inject_Z (2 ^ Z.of_nat k)). intros p Hpos.
  change (inject_Z 2) with 2%Q.
  apply Q.min_le_compat; lra.
Qed.

Lemma nominal_delay_positive (k : nat) : (0 < nominal_delay k)%Q.
Proof.
  unfold nominal_delay.
  assert (0 < inject_Z (2 ^ Z.of_nat k))%Q as Hpos.
  { change 0%Q with (inject_Z 0). rewrite <- Zlt_Qlt. lia. }
  apply Q.min_glb_lt; lra.
Qed.

Section BackoffShape.
Context {St V : Type}.
Variable random : St -> Q * St.
Variable sleep : Q -> St -> St.
Variable retry_on : exn -> St -> Outcome bool * St.
Variable f : St -> Outcome V * St.

(** The delay before attempt [k] is [min(1.0 * 2^k, 10.0)], whatever
    the state. *)
Lemma delay_before_attempt (k : nat) (s : St) :
  (fst (before_attempt random sleep retry_on f k s) == nominal_delay k)%Q.
Proof.
  unfold before_attempt. induction k as [|k IH].
  - reflexivity.
  - rewrite Nat.iter_succ. unfold retried_attempt at 1. cbn [fst].
    now apply nominal_delay_next.
Qed.

(** A draw in range puts the jittered delay within 20% of the current
    delay. *)
Lemma jittered_within_band (d : Q) (s : St) :
  (0 <= d)%Q ->
  (0 <= fst (random (classified retry_on f s)) < 1)%Q ->
  (d * 0.8 <= fst (jittered random retry_on f (d, s)) <= d * 1.2)%Q.
Proof.
  unfold jittered, uniform, jitter. cbn [fst snd].
  destruct (random (classified retry_on f s)) as [u s']. cbn [fst].
  intros Hd [H0 H1]. split; nra.
Qed.
End BackoffShape.

Lemma unit_draw_spec (u : Q) : unit_draw u = true -> (0 <= u < 1)%Q.
Proof.
  unfold unit_draw. rewrite andb_true_iff, negb_true_iff.
  intros [H0 H1]. apply Qle_bool_iff in H0. split; [exact H0|].
  apply Qnot_le_lt. intros H. apply Qle_bool_iff in H. congruence.
Qed.

Section BackoffChecks.
Context {St V : Type}.
Variable random : St -> Q * St.
Variable sleep : Q -> St -> St.
Variable retry_on : exn -> St -> Outcome bool * St.
Variable f : St -> Outcome V * St.

Local Abbreviation step := (retried_attempt random sleep retry_on f).

Lemma failing_from_spec n : forall ds k,
  failing_from random sleep retry_on f n ds = true ->
  (k < n)%nat ->
  transient_failure retry_on f (snd (Nat.iter k step ds)) = true.
Proof.
  induction n as [|n IH]; intros ds k H Hk; [lia|].
  cbn [failing_from] in H. apply andb_true_iff in H as [H0 H1].
  destruct k as [|k]; [exact H0|].
  rewrite Nat.iter_succ_r. apply IH; [exact H1|lia].
Qed.

Lemma draws_from_spec n : forall ds k,
  draws_from random sleep retry_on f n ds = true ->
  (k < n)%nat ->
  (0 <= fst (random (classified retry_on f (snd (Nat.iter k step ds)))) < 1)%Q.
Proof.
  induction n as [|n IH]; intros ds k H Hk; [lia|].
  cbn [draws_from] in H. apply andb_true_iff in H as [H0 H1].
  destruct k as [|k]; [now apply unit_draw_spec|].
  rewrite Nat.iter_succ_r. apply IH; [exact H1|lia].
Qed.

Lemma persistently_failing_check (s : St) :
  failing_from random sleep retry_on f max_tries (init_delay_s, s) = true ->
  persistently_failing random sleep retry_on f s.
Proof. intros H k Hk. now apply (failing_from_spec max_tries). Qed.

Lemma draws_in_range_check (s : St) :
  draws_from random sleep retry_on f max_tries (init_delay_s, s) = true ->
  draws_in_range random sleep retry_on f s.
Proof. intros H k Hk. now apply (draws_from_spec max_tries). Qed.
End BackoffChecks.

(** ** Exhaustion *)

(** C2: an operation that fails transiently on every attempt is invoked
    exactly 200 times, and the call then raises the very error that the
    200th invocation produced; no other error value is introduced. *)
Theorem exhaustion_reraises_last_error {St V : Type}
    (random : St -> Q * St) (sleep : Q -> St -> St)
    (retry_on : exn -> St -> Outcome bool * St) (f : St -> Outcome V * St) (s : St) :
  persistently_failing random sleep retry_on f s ->
  let r := exponential_backoff random sleep retry_on f s in
  let last := snd (before_attempt random sleep retry_on f 199 s) in
  attempts r = 200%nat /\
  length (slept r) = 199%nat /\
  exists err, fst (f last) = Raise err /\ outcome r = Raise err.
Proof.
  intros Hfail.
  destruct (retry_loop_failing random sleep retry_on f 199 0%nat init_delay_s s)
    as (Ha & Hs & _ & err & Herr & Ho).
  { reflexivity. }
  { intros k Hk. apply Hfail. unfold max_tries. lia. }
  cbn zeta. unfold exponential_backoff, f_retry.
  change (seq 0 max_tries) with (seq 0 200).
  repeat split; [exact Ha| |exists err; split; assumption].
  rewrite Hs, length_map, length_seq. reflexivity.
Qed.

Lemma exhaustion_reraises_last_error_witness :
  let w := world_of client_main remote_overloaded entropy_half in
  let r := make_request None None payload_main w in
  persistently_failing random sleep classify (make_request_once None None payload_main) w /\
  attempts r = 200%nat /\
  outcome r =
    Raise (HTTPStatusError
             (mkResponse 503 "https://api.openai.com/v1/completions"
                (error_body "server_error" 199))).
Proof.
  cbn zeta.
  assert (persistently_failing random sleep classify
            (make_request_once None None payload_main)
            (world_of client_main remote_overloaded entropy_half)) as Hfail.
  { apply persistently_failing_check. vm_compute. reflexivity. }
  split; [exact Hfail|].
  destruct (exhaustion_reraises_last_error random sleep classify
              (make_request_once None None payload_main) _ Hfail)
    as (Ha & _ & err & Herr & Ho).
  split; [exact Ha|].
  unfold make_request. rewrite Ho.
  vm_compute in Herr. injection Herr as <-. reflexivity.
Defined.

(** ** Backoff shape *)

(** C3 (as amended): under a persistently failing transient condition
    with draws in [[0, 1)], the loop sleeps 199 times; the delay before
    attempt [k] is [min(1.0 * 2^k, 10.0)], a non-decreasing sequence;
    the delay after it is [min(delay * 2.0, 10.0)]; the k-th sleep is the
    draw [uniform(delay * (1 - 0.2), delay * (1 + 0.2))] made at that
    delay, and lies within 20% of it. *)
Theorem backoff_sleeps_within_band {St V : Type}
    (random : St -> Q * St) (sleep : Q -> St -> St)
    (retry_on : exn -> St -> Outcome bool * St) (f : St -> Outcome V * St) (s : St) :
  persistently_failing random sleep retry_on f s ->
  draws_in_range random sleep retry_on f s ->
  let r := exponential_backoff random sleep retry_on f s in
  length (slept r) = 199%nat /\
  forall k, (k < 199)%nat ->
    let before := before_attempt random sleep retry_on f k s in
    let after := before_attempt random sleep retry_on f (S k) s in
    let delay_s := fst before in
    (delay_s == nominal_delay k)%Q /\
    fst after = Qmin (delay_s * backoff_multiplier) max_delay_s /\
    (delay_s <= fst after)%Q /\
    exists jittered_delay,
      nth_error (slept r) k = Some jittered_delay /\
      jittered_delay =
        fst (uniform random (delay_s * (1 - jitter)) (delay_s * (1 + jitter))
               (classified retry_on f (snd before))) /\
      (nominal_delay k * 0.8 <= jittered_delay <= nominal_delay k * 1.2)%Q.
Proof.
  intros Hfail Hdraw.
  destruct (retry_loop_failing random sleep retry_on f 199 0%nat init_delay_s s)
    as (_ & Hs & _).
  { reflexivity. }
  { intros k Hk. apply Hfail. unfold max_tries. lia. }
  cbn zeta. unfold exponential_backoff, f_retry.
  change (seq 0 max_tries) with (seq 0 200). rewrite Hs.
  split; [now rewrite length_map, length_seq|].
  intros k Hk.
  pose proof (delay_before_attempt random sleep retry_on f k s) as Hd.
  pose proof (delay_before_attempt random sleep retry_on f (S k) s) as Hd'.
  split; [exact Hd|]. split; [|split].
  - unfold before_attempt. rewrite Nat.iter_succ. reflexivity.
  - rewrite Hd, Hd'. apply nominal_delay_nondecreasing.
  - eexists. split; [|split].
    + rewrite nth_error_map, nth_error_seq.
      destruct (Nat.ltb_spec k 199) as [_|?]; [reflexivity|lia].
    + reflexivity.
    + assert (0 <= fst (before_attempt random sleep retry_on f k s))%Q as Hpos.
      { rewrite Hd. apply Qlt_le_weak, nominal_delay_positive. }
      assert (k < max_tries)%nat as Hk' by (unfold max_tries; lia).
      pose proof (jittered_within_band random retry_on f _ _ Hpos (Hdraw k Hk')) as Hband.
      cbn [Nat.add]. unfold before_attempt in *.
      destruct (Nat.iter k (retried_attempt random sleep retry_on f) (init_delay_s, s))
        as [d sk].
      cbn [fst snd] in *. rewrite <- Hd. exact Hband.
Qed.

Lemma backoff_sleeps_within_band_witness :
  let w := world_of client_main remote_overloaded entropy_dip in
  let r := make_request None None payload_main w in
  persistently_failing random sleep classify (make_request_once None None payload_main) w /\
  draws_in_range random sleep classify (make_request_once None None payload_main) w /\
  length (slept r) = 199%nat /\
  exists d, nth_error (slept r) 3 = Some d /\ (8 * 0.8 <= d <= 8 * 1.2)%Q.
Proof.
  cbn zeta.
  assert (persistently_failing random sleep classify
            (make_request_once None None payload_main)
            (world_of client_main remote_overloaded entropy_dip)) as Hfail.
  { apply persistently_failing_check. vm_compute. reflexivity. }
  assert (draws_in_range random sleep classify
            (make_request_once None None payload_main)
            (world_of client_main remote_overloaded entropy_dip)) as Hdraw.
  { apply draws_in_range_check. vm_compute. reflexivity. }
  split; [exact Hfail|]. split; [exact Hdraw|].
  destruct (backoff_sleeps_within_band random sleep classify
              (make_request_once None None payload_main) _ Hfail Hdraw) as [Hlen Hk].
  split; [exact Hlen|].
  destruct (Hk 3%nat ltac:(lia)) as (_ & _ & _ & d & Hnth & _ & Hband).
  exists d. split; [exact Hnth|].
  assert (nominal_delay 3 == 8)%Q as E by reflexivity.
  rewrite E in Hband. exact Hband.
Defined.

(** C3, as stated, fails: with the sixth draw lower than the fifth, the
    loop sleeps 10 seconds and then 8, so the sleeps themselves are not
    non-decreasing although every hypothesis of the claim holds. *)
Lemma backoff_sleeps_not_monotone :
  let w := world_of client_main remote_overloaded entropy_dip in
  let r := make_request None None payload_main w in
  persistently_failing random sleep classify (make_request_once None None payload_main) w /\
  draws_in_range random sleep classify (make_request_once None None payload_main) w /\
  (exists a b,
     nth_error (slept r) 4 = Some a /\ nth_error (slept r) 5 = Some b /\
     (a == 10)%Q /\ (b == 8)%Q) /\
  ~ (forall k a b,
       nth_error (slept r) k = Some a ->
       nth_error (slept r) (S k) = Some b ->
       (a <= b)%Q).
Proof.
  cbn zeta.
  assert (exists a b,
            nth_error (slept (make_request None None payload_main
              (world_of client_main remote_overloaded entropy_dip))) 4 = Some a /\
            nth_error (slept (make_request None None payload_main
              (world_of client_main remote_overloaded entropy_dip))) 5 = Some b /\
            (a == 10)%Q /\ (b == 8)%Q) as Hex.
  { vm_compute. eexists. eexists. repeat split; reflexivity. }
  split; [|split; [|split; [exact Hex|]]].
  - apply persistently_failing_check. vm_compute. reflexivity.
  - apply draws_in_range_check. vm_compute. reflexivity.
  - destruct Hex as (a & b & Ha & Hb & Ea & Eb). intros H.
    specialize (H 4%nat a b Ha Hb). rewrite Ea, Eb in H.
    revert H. apply Qlt_not_le. reflexivity.
Qed.

(** ** Fatal and raising classifications *)

Lemma print_nil (w : World) : print [] w = w.
Proof. destruct w. unfold print. cbn. now rewrite app_nil_r. Qed.

(** C7: when the first attempt of a call fails with an HTTP error
    response of status 400 whose body's [error.type] is not
    [idempotency_error], the call makes exactly one attempt, sleeps
    never, and raises that same failure, leaving the world as the
    attempt left it. *)
Theorem bad_request_fails_after_one_attempt {V : Type}
    (f : World -> Outcome V * World) (w : World) (r : Response) (ty : json) :
  fst (f w) = Raise (HTTPStatusError r) ->
  status_code r = 400 ->
  error_type (body r) = Some ty ->
  is_idempotency_error ty = false ->
  exponential_backoff random sleep classify f w =
    mkRun (Raise (HTTPStatusError r)) (snd (f w)) 1%nat [].
Proof.
  intros Hf Hstatus Hty Hidem.
  assert (is_api_error (HTTPStatusError r) = ([], Ok false)) as Hclass.
  { unfold is_api_error, response_json. unfold error_type in Hty.
    destruct (body r) as [[| | | | |d]| |]; try discriminate. cbn [py_get].
    destruct (dict_get "error" d) as [[| | | | |e]|]; try discriminate;
      injection Hty as <-; cbn [py_get dict_get is_idempotency_error];
      rewrite Hstatus; cbn [invalid_request_status existsb Z.eqb Pos.eqb orb].
    - now rewrite Hidem.
    - reflexivity. }
  destruct (f w) as [o s1] eqn:Hfw. cbn [fst snd] in *. subst o.
  unfold exponential_backoff, f_retry. change (seq 0 max_tries) with (0%nat :: seq 1 199).
  apply retry_loop_fatal with (s1 := s1); [exact Hfw|].
  unfold classify. rewrite Hclass. now rewrite print_nil.
Qed.

Lemma bad_request_fails_after_one_attempt_witness :
  let w := world_of client_main remote_bad_request entropy_half in
  let r := mkResponse 400 "https://api.openai.com/v1/completions"
             (error_body "invalid_request_error" 0) in
  make_request None None payload_main w =
    mkRun (Raise (HTTPStatusError r))
      (snd (make_request_once None None payload_main w)) 1%nat [] /\
  List.filter (fun e => match e with Post _ => true | _ => false end)
    (trace (final (make_request None None payload_main w))) =
    [Post (request_of w None payload_main)].
Proof.
  cbn zeta. split.
  - apply (bad_request_fails_after_one_attempt
             (make_request_once None None payload_main)
             (world_of client_main remote_bad_request entropy_half)
             (mkResponse 400 "https://api.openai.com/v1/completions"
                (error_body "invalid_request_error" 0))
             (JStr "invalid_request_error")).
    + vm_compute. reflexivity.
    + reflexivity.
    + reflexivity.
    + reflexivity.
  - vm_compute. reflexivity.
Defined.

(** C9: when an attempt, the first of a call or one made after earlier
    attempts have failed and been retried, fails with an HTTP error
    response whose body does not decode as JSON, the classifier raises
    the decoding error while reading the body; the loop ends there, with
    no further attempt and no sleep after that attempt, and the caller
    receives the decoding error in place of the HTTP status failure. *)
Theorem undecodable_error_body_escapes_classifier {V : Type}
    (f : World -> Outcome V * World) (w : World) (k : nat) (r : Response) (e : exn) :
  (k < max_tries)%nat ->
  (forall j, (j < k)%nat ->
     transient_failure classify f
       (snd (before_attempt random sleep classify f j w)) = true) ->
  let wk := snd (before_attempt random sleep classify f k w) in
  fst (f wk) = Raise (HTTPStatusError r) ->
  response_json r = Raise e ->
  let run := exponential_backoff random sleep classify f w in
  snd (is_api_error (HTTPStatusError r)) = Raise e /\
  outcome run = Raise e /\
  attempts run = S k /\
  final run = snd (f wk) /\
  slept run =
    List.map (fun j => fst (jittered random classify f
                              (before_attempt random sleep classify f j w)))
      (seq 0 k) /\
  e <> HTTPStatusError r /\
  (e = JSONDecodeError \/ e = UnicodeDecodeError).
Proof.
  intros Hk Hfail. cbn zeta. intros Hf Hjson.
  assert (is_api_error (HTTPStatusError r) = ([], Raise e)) as Hclass.
  { unfold is_api_error. now rewrite Hjson. }
  assert (e = JSONDecodeError \/ e = UnicodeDecodeError) as He.
  { unfold response_json in Hjson.
    destruct (body r); [discriminate|left|right]; congruence. }
  split; [now rewrite Hclass|].
  unfold exponential_backoff, f_retry, before_attempt in *.
  replace (seq 0 max_tries) with (seq 0 k ++ seq k (max_tries - k))%list
    by (rewrite <- seq_app; f_equal; lia).
  rewrite retry_loop_prefix; [|lia|exact Hfail].
  destruct (max_tries - k)%nat as [|m] eqn:Hm; [lia|].
  change (seq k (S m)) with (k :: seq (S k) m).
  destruct (Nat.iter k (retried_attempt random sleep classify f) (init_delay_s, w))
    as [dk wk]. cbn [fst snd] in *.
  destruct (f wk) as [o w1] eqn:Hfw. cbn [fst snd] in *. subst o.
  rewrite (retry_loop_classifier_raises random sleep classify f _ _ _ _
             (HTTPStatusError r) e w1 w1 Hfw).
  - cbn [outcome final attempts slept]. rewrite app_nil_r.
    repeat split; [lia| |exact He].
    destruct He as [-> | ->]; discriminate.
  - unfold classify. rewrite Hclass. now rewrite print_nil.
Qed.

Lemma undecodable_error_body_escapes_classifier_witness :
  let first := world_of client_main remote_bad_gateway entropy_half in
  let later := world_of client_main remote_gateway_down entropy_half in
  (outcome (make_request None None payload_main first) = Raise JSONDecodeError /\
   attempts (make_request None None payload_main first) = 1%nat /\
   slept (make_request None None payload_main first) = []) /\
  (outcome (make_request None None payload_main later) = Raise JSONDecodeError /\
   attempts (make_request None None payload_main later) = 3%nat /\
   length (slept (make_request None None payload_main later)) = 2%nat /\
   length (posts (trace (final (make_request None None payload_main later)))) = 3%nat).
Proof.
  cbn zeta. split.
  - destruct (undecodable_error_body_escapes_classifier
                (make_request_once None None payload_main)
                (world_of client_main remote_bad_gateway entropy_half) 0
                (mkResponse 502 "https://api.openai.com/v1/completions"
                   (TextBody "<html>502 Bad Gateway</html>"))
                JSONDecodeError) as (_ & Ho & Ha & _ & Hs & _).
    + unfold max_tries. lia.
    + intros j Hj. lia.
    + vm_compute. reflexivity.
    + reflexivity.
    + unfold make_request. rewrite Ho, Ha, Hs. repeat split.
  - destruct (undecodable_error_body_escapes_classifier
                (make_request_once None None payload_main)
                (world_of client_main remote_gateway_down entropy_half) 2
                (mkResponse 502 "https://api.openai.com/v1/completions"
                   (TextBody "<html>502 Bad Gateway</html>"))
                JSONDecodeError) as (_ & Ho & Ha & Hf & Hs & _).
    + unfold max_tries. lia.
    + intros j Hj. unfold before_attempt.
      apply (failing_from_spec random sleep classify
               (make_request_once None None payload_main) 2); [|exact Hj].
      vm_compute. reflexivity.
    + vm_compute. reflexivity.
    + reflexivity.
    + unfold make_request. rewrite Ho, Ha, Hs, Hf, length_map, length_seq.
      split; [reflexivity|]. split; [reflexivity|]. split; [reflexivity|].
      vm_compute. reflexivity.
Defined.

(** C1 fails on the code at a 502 response with an HTML body, a status
    outside 400, 404 and 415 for which the rule table says retryable:
    the classifier returns no verdict and raises the decoding error.
    It equally raises, with an attribute error, when the body is JSON
    but not an object, or when its [error] member is not an object. *)
Theorem is_api_error_bad_gateway :
  is_api_error
    (HTTPStatusError
       (mkResponse 502 "https://api.openai.com/v1/completions"
          (TextBody "<html>502 Bad Gateway</html>")))
  = ([], Raise JSONDecodeError) /\
  is_api_error
    (HTTPStatusError
       (mkResponse 503 "https://api.openai.com/v1/completions" (JsonBody (JArr []))))
  = ([], Raise AttributeError) /\
  is_api_error
    (HTTPStatusError
       (mkResponse 500 "https://api.openai.com/v1/completions"
          (JsonBody (JObj [("error", JStr "internal error")]))))
  = ([], Raise AttributeError).
Proof. repeat split. Qed.

(** ** The serialisation is injective *)


Lemma append_inj_l (s a b : string) : (s ++ a)%string = (s ++ b)%string -> a = b.
Proof. induction s as [|c s IH]; cbn; [auto|]. intros [= H]. auto. Qed.

Lemma append_cons (x : ascii) (a b : string) : String x a ++ b = String x (a ++ b).
Proof. reflexivity. Qed.

Lemma string_cons_inj (c c' : ascii) (a b : string) :
  String c a = String c' b -> c = c' /\ a = b.
Proof. now intros [= -> ->]. Qed.

Lemma append_assoc (a b c : string) : (a ++ b) ++ c = a ++ (b ++ c).
Proof.
  induction a as [|x a IH]; [reflexivity|].
  rewrite !append_cons. f_equal. exact IH.
Qed.

Lemma append_nil_r (a : string) : a ++ EmptyString = a.
Proof.
  induction a as [|x a IH]; [reflexivity|].
  rewrite append_cons. f_equal. exact IH.
Qed.

Lemma unescape_escape_char (c : ascii) (x : string) :
  unescape_char (escape_char c ++ x) = Some (c, x).
Proof. destruct c as [[] [] [] [] [] [] [] []]; reflexivity. Qed.

Lemma escape_char_prefix (c c' : ascii) (x x' : string) :
  escape_char c ++ x = escape_char c' ++ x' -> c = c' /\ x = x'.
Proof.
  intros H. apply (f_equal unescape_char) in H.
  rewrite !unescape_escape_char in H. now injection H.
Qed.

(** A quoted string is read back, with what follows it. *)
Lemma escape_prefix (s : string) : forall s' r r',
  escape s ++ String dquote r = escape s' ++ String dquote r' -> s = s' /\ r = r'.
Proof.
  induction s as [|c s IH]; intros [|c' s'] r r' H; cbn [escape] in H.
  - change (String dquote r = String dquote r') in H. now injection H.
  - apply (f_equal unescape_char) in H.
    rewrite append_assoc, unescape_escape_char in H. discriminate.
  - apply (f_equal unescape_char) in H.
    rewrite append_assoc, unescape_escape_char in H. discriminate.
  - rewrite !append_assoc in H. apply escape_char_prefix in H as [-> H].
    apply IH in H as [-> ->]. auto.
Qed.

Lemma quote_prefix (s s' r r' : string) :
  quote s ++ r = quote s' ++ r' -> s = s' /\ r = r'.
Proof.
  unfold quote. rewrite !append_cons. intros [= H].
  rewrite !append_assoc, !append_cons in H. now apply escape_prefix.
Qed.

(** *** Numbers *)

Lemma uint_all_digits (d : Decimal.uint) :
  all_digits (NilEmpty.string_of_uint d) = true.
Proof. induction d; cbn [NilEmpty.string_of_uint all_digits]; auto. Qed.

(** A run of digits ends where the digits end. *)
Lemma digits_prefix (s : string) : forall s' r r',
  all_digits s = true -> all_digits s' = true ->
  delimited r -> delimited r' ->
  s ++ r = s' ++ r' -> s = s' /\ r = r'.
Proof.
  induction s as [|c s IH]; intros [|c' s'] r r' Hs Hs' Hr Hr' H.
  - auto.
  - change (r = String c' (s' ++ r')) in H. subst r.
    cbn in Hs', Hr. apply andb_true_iff in Hs' as [Hc' _]. congruence.
  - change (String c (s ++ r) = r') in H. subst r'.
    cbn in Hs, Hr'. apply andb_true_iff in Hs as [Hc _]. congruence.
  - rewrite !append_cons in H. injection H as -> H.
    cbn in Hs, Hs'. apply andb_true_iff in Hs as [_ Hs].
    apply andb_true_iff in Hs' as [_ Hs'].
    destruct (IH s' r r' Hs Hs' Hr Hr' H) as [-> ->]. auto.
Qed.

Lemma string_of_uint_inj (d d' : Decimal.uint) :
  NilEmpty.string_of_uint d = NilEmpty.string_of_uint d' -> d = d'.
Proof.
  intros H. apply (f_equal NilEmpty.uint_of_string) in H.
  rewrite !NilEmpty.usu in H. now injection H.
Qed.

(** The text of an integer: an optional minus sign and the digits of
    its absolute value. *)
Lemma string_of_Z_shape (n : Z) :
  exists (neg : bool) (d : Decimal.uint),
    string_of_Z n = (if neg then "-" else EmptyString) ++ NilEmpty.string_of_uint d /\
    d <> Decimal.Nil /\
    Z.to_int n = (if neg then Decimal.Neg d else Decimal.Pos d).
Proof.
  unfold string_of_Z. destruct n as [|p|p]; cbn [Z.to_int NilZero.string_of_int].
  - exists false, (Decimal.D0 Decimal.Nil). repeat split. discriminate.
  - exists false, (Pos.to_uint p). pose proof (Unsigned.to_uint_nonnil p) as Hnil.
    repeat split; [|exact Hnil]. unfold NilZero.string_of_uint.
    destruct (Pos.to_uint p); [contradiction|reflexivity..].
  - exists true, (Pos.to_uint p). pose proof (Unsigned.to_uint_nonnil p) as Hnil.
    repeat split; [|exact Hnil]. unfold NilZero.string_of_uint.
    destruct (Pos.to_uint p); [contradiction|reflexivity..].
Qed.

Lemma uint_head_digit (d : Decimal.uint) :
  d <> Decimal.Nil ->
  exists c s, NilEmpty.string_of_uint d = String c s /\ is_digit c = true.
Proof. destruct d; [contradiction|..]; intros _; eexists _, _; split; reflexivity. Qed.

Lemma string_of_Z_prefix (n n' : Z) (r r' : string) :
  delimited r -> delimited r' ->
  string_of_Z n ++ r = string_of_Z n' ++ r' -> n = n' /\ r = r'.
Proof.
  intros Hr Hr' H.
  destruct (string_of_Z_shape n) as (neg & d & E & Hd & Hn).
  destruct (string_of_Z_shape n') as (neg' & d' & E' & Hd' & Hn').
  rewrite E, E' in H.
  assert (neg = neg' /\ NilEmpty.string_of_uint d ++ r = NilEmpty.string_of_uint d' ++ r')
    as [-> H'].
  { destruct (uint_head_digit d Hd) as (c & s & Ec & Hc).
    destruct (uint_head_digit d' Hd') as (c' & s' & Ec' & Hc').
    destruct neg, neg'; rewrite ?append_cons in H; cbn [String.append] in H.
    - change (String "-" (NilEmpty.string_of_uint d ++ r)
              = String "-" (NilEmpty.string_of_uint d' ++ r')) in H.
      injection H as H. auto.
    - change (String "-" (NilEmpty.string_of_uint d ++ r)
              = NilEmpty.string_of_uint d' ++ r') in H.
      rewrite Ec', append_cons in H. injection H as <- _. discriminate.
    - change (NilEmpty.string_of_uint d ++ r
              = String "-" (NilEmpty.string_of_uint d' ++ r')) in H.
      rewrite Ec, append_cons in H. injection H as -> _. discriminate.
    - auto. }
  destruct (digits_prefix _ _ _ _ (uint_all_digits d) (uint_all_digits d') Hr Hr' H')
    as [Hdd ->].
  apply string_of_uint_inj in Hdd. subst d'. split; [|reflexivity].
  rewrite <- (DecimalZ.of_to n), <- (DecimalZ.of_to n'). congruence.
Qed.

Lemma string_of_Z_head (n : Z) :
  exists c s, string_of_Z n = String c s /\ kind_of_head c = 4%nat.
Proof.
  destruct (string_of_Z_shape n) as (neg & d & E & Hd & _).
  destruct (uint_head_digit d Hd) as (c & s & Ec & Hc).
  rewrite E, Ec. destruct neg.
  - eexists _, _. split; reflexivity.
  - exists c, s. split; [reflexivity|].
    unfold kind_of_head. rewrite Hc. unfold is_digit in Hc.
    apply andb_true_iff in Hc as [H1 H2].
    apply Nat.leb_le in H1. apply Nat.leb_le in H2.
    repeat match goal with
           | |- context [(?a =? ?b)%nat] =>
               destruct (Nat.eqb_spec a b); [lia|]
           end.
    reflexivity.
Qed.

(** *** Values *)

(** The first byte of a serialisation announces the constructor. *)
Lemma dumps_head (v : json) :
  exists c s, dumps v = String c s /\ kind_of_head c = value_kind v.
Proof.
  destruct v as [|[|]|n|s|l|d]; try (eexists _, _; split; reflexivity).
  apply string_of_Z_head.
Qed.

Lemma dumps_kind (v v' : json) (r r' : string) :
  dumps v ++ r = dumps v' ++ r' -> value_kind v = value_kind v'.
Proof.
  destruct (dumps_head v) as (c & s & E & <-).
  destruct (dumps_head v') as (c' & s' & E' & <-).
  rewrite E, E', !append_cons. now intros [= -> _].
Qed.

(** Members joined by commas and closed by [close] are read back one
    by one, when each member can be read back and none begins with the
    closing byte. *)
Lemma concat_prefix {A : Type} (enc : A -> string) (close : ascii) :
  (forall a, exists c s, enc a = String c s /\ c <> close /\ c <> ","%char) ->
  close <> ","%char ->
  is_digit close = false ->
  forall l,
    Forall (fun a => forall a' r r',
              delimited r -> delimited r' ->
              enc a ++ r = enc a' ++ r' -> a = a' /\ r = r') l ->
    forall l' r r',
      String.concat "," (List.map enc l) ++ String close r =
      String.concat "," (List.map enc l') ++ String close r' ->
      l = l' /\ r = r'.
Proof.
  intros Hhead Hclose Hdigit.
  assert (forall l : list A,
            l <> [] ->
            exists a l1,
              l = a :: l1 /\
              forall r, String.concat "," (List.map enc l) ++ String close r =
                        enc a ++ match l1 with
                                 | [] => String close r
                                 | _ => String "," (String.concat "," (List.map enc l1)
                                                    ++ String close r)
                                 end) as Hcons.
  { intros [|a [|b l1]] Hne; [contradiction|..]; exists a; eexists; (split; [reflexivity|]).
    - intros r. reflexivity.
    - intros r. cbn [List.map String.concat]. rewrite !append_assoc. reflexivity. }
  induction 1 as [|a l1 Ha _ IH]; intros l' r r' H.
  - change (String close r = String.concat "," (List.map enc l') ++ String close r') in H.
    destruct l' as [|a' l1']; [now injection H|].
    destruct (Hcons (a' :: l1') ltac:(discriminate)) as (b & l2 & [= <- <-] & E).
    rewrite E in H. destruct (Hhead a') as (c & s & Ec & Hc & _).
    rewrite Ec, append_cons in H. injection H as <- _. contradiction.
  - destruct (Hcons (a :: l1) ltac:(discriminate)) as (b & l2 & [= <- <-] & E).
    rewrite E in H. clear E.
    destruct l' as [|a' l1'].
    { change (String.concat "," (List.map enc []) ++ String close r')
        with (String close r') in H.
      destruct (Hhead a) as (c & s & Ec & Hc & _).
      rewrite Ec, append_cons in H. injection H as -> _. contradiction. }
    destruct (Hcons (a' :: l1') ltac:(discriminate)) as (b & l2 & [= <- <-] & E').
    rewrite E' in H. clear E'.
    apply Ha in H as [<- H].
    + destruct l1 as [|b l1], l1' as [|b' l1'].
      * now injection H as ->.
      * injection H as H _. congruence.
      * injection H as H _. congruence.
      * apply string_cons_inj in H as [_ H]. apply IH in H as [-> ->]. auto.
    + destruct l1; cbn; [exact Hdigit|reflexivity].
    + destruct l1'; cbn; [exact Hdigit|reflexivity].
Qed.

Lemma json_ind' (P : json -> Prop) :
  P JNull -> (forall b, P (JBool b)) -> (forall n, P (JInt n)) ->
  (forall s, P (JStr s)) ->
  (forall l, Forall P l -> P (JArr l)) ->
  (forall d, Forall (fun kv => P (snd kv)) d -> P (JObj d)) ->
  forall v, P v.
Proof.
  intros Hnull Hbool Hint Hstr Harr Hobj. fix IH 1. intros [|b|n|s|l|d].
  - exact Hnull.
  - apply Hbool.
  - apply Hint.
  - apply Hstr.
  - apply Harr. revert l. fix IHl 1. intros [|x l]; constructor; [apply IH|apply IHl].
  - apply Hobj. revert d. fix IHd 1. intros [|[k x] d]; constructor; [apply IH|apply IHd].
Qed.

Lemma append_nil_l (a : string) : EmptyString ++ a = a.
Proof. reflexivity. Qed.

Lemma dumps_head_not (v : json) (close : ascii) :
  kind_of_head close = 0%nat ->
  exists c s, dumps v = String c s /\ c <> close /\ c <> ","%char.
Proof.
  intros Hclose. destruct (dumps_head v) as (c & s & E & Hk).
  exists c, s. split; [exact E|].
  assert (value_kind v <> 0%nat) as Hv by (destruct v as [|[|]| | | |]; discriminate).
  split; intros ->; [congruence|]. apply Hv. rewrite <- Hk. reflexivity.
Qed.

(** A serialised value is read back, with what follows it. *)
Lemma dumps_prefix (v : json) : forall v' r r',
  delimited r -> delimited r' ->
  dumps v ++ r = dumps v' ++ r' -> v = v' /\ r = r'.
Proof.
  induction v as [|b|n|s|l IH|d IH] using json_ind'; intros v' r r' Hr Hr' H;
    pose proof (dumps_kind _ _ _ _ H) as Hk.
  - destruct v' as [|[|]| | | |]; try discriminate Hk.
    apply append_inj_l in H. auto.
  - destruct b, v' as [|[|]| | | |]; try discriminate Hk;
      apply append_inj_l in H; auto.
  - destruct v' as [|[|]|n'| | |]; try discriminate Hk.
    cbn [dumps] in H. apply string_of_Z_prefix in H as [-> ->]; auto.
  - destruct v' as [|[|]| |s'| |]; try discriminate Hk.
    cbn [dumps] in H. apply quote_prefix in H as [-> ->]. auto.
  - destruct v' as [|[|]| | |l'|]; try discriminate Hk.
    cbn [dumps] in H.
    rewrite !append_assoc, !append_cons, !append_nil_l in H.
    apply string_cons_inj in H as [_ H].
    assert (forall a, exists c s,
              dumps a = String c s /\ c <> "]"%char /\ c <> ","%char) as Hhead.
    { intros a. now apply dumps_head_not. }
    destruct (concat_prefix dumps "]"%char Hhead ltac:(discriminate) eq_refl
                l IH l' _ _ H) as [-> ->].
    auto.
  - destruct v' as [|[|]| | | |d']; try discriminate Hk.
    cbn [dumps] in H.
    rewrite !append_assoc, !append_cons, !append_nil_l in H.
    apply string_cons_inj in H as [_ H].
    assert (forall a : string * json, exists c s,
              quote (fst a) ++ ":" ++ dumps (snd a) = String c s /\
              c <> "}"%char /\ c <> ","%char) as Hhead.
    { intros [k x]. eexists _, _. split; [reflexivity|]. split; discriminate. }
    assert (Forall (fun a : string * json => forall a' r r',
                      delimited r -> delimited r' ->
                      (quote (fst a) ++ ":" ++ dumps (snd a)) ++ r =
                      (quote (fst a') ++ ":" ++ dumps (snd a')) ++ r' ->
                      a = a' /\ r = r') d) as Hmembers.
    { clear -IH. induction IH as [|[k x] d Hx _ IHd]; constructor; [|exact IHd].
      intros [k' x'] r r' Hr Hr' H. cbn [fst snd] in *.
      rewrite !append_assoc in H. apply quote_prefix in H as [-> H].
      rewrite !append_cons, !append_nil_l in H.
      apply string_cons_inj in H as [_ H].
      apply Hx in H as [-> ->]; auto. }
    destruct (concat_prefix (fun kv => quote (fst kv) ++ ":" ++ dumps (snd kv)) "}"%char
                Hhead ltac:(discriminate) eq_refl d Hmembers d' _ _ H) as [-> ->].
    auto.
Qed.

(** [orjson.dumps] is injective: two payloads have the same key only
    if they have the same fields with the same values in the same
    order. *)
Lemma dumps_inj (v v' : json) : dumps v = dumps v' -> v = v'.
Proof.
  intros H. apply (dumps_prefix v v' EmptyString EmptyString I I).
  now rewrite !append_nil_r.
Qed.

Lemma orjson_dumps_inj (kwargs kwargs' : dict) :
  orjson_dumps kwargs = orjson_dumps kwargs' -> kwargs = kwargs'.
Proof. unfold orjson_dumps. intros H. apply dumps_inj in H. now injection H. Qed.


(** ** One attempt of [make_request] *)

Local Open Scope list_scope.

Arguments orjson_dumps : simpl never.
Arguments serializable : simpl never.
Arguments endpoint : simpl never.
Arguments outgoing : simpl never.
Arguments api_http_headers : simpl never.

Ltac run_attempt w :=
  unfold make_request_once, orjson_dumps_call, dispatch, acquire, release, post,
    raise_for_status_logged, request_of, gated, caching;
  destruct w as [[mn base okey [[n]|] cache] env rem np ent nd tr out]; cbn;
  repeat (case_match; simplify_eq/=).

Ltac shape :=
  lazymatch goal with
  | |- attempt_shape ?c ?g ?k ?t ?r ?l =>
      first [ exact (shape_unkeyed c g k t r eq_refl)
            | exact (shape_hit c g k t r eq_refl)
            | exact (shape_sent c g k t r)
            | exact (shape_blocked c g k t r eq_refl)
            | match l with
              | context [CacheStore _ ?v] => exact (shape_stored c g k t r v eq_refl)
              end ]
  end.

Lemma attempt_frame tm jm kw w :
  same_setting w (snd (make_request_once tm jm kw w)).
Proof.
  unfold same_setting. run_attempt w; repeat split; reflexivity.
Qed.

Lemma attempt_trace tm jm kw w :
  exists evs,
    trace (snd (make_request_once tm jm kw w)) = trace w ++ evs /\
    attempt_shape (caching w) (gated w) (orjson_dumps kw) tm (request_of w jm kw) evs.
Proof.
  run_attempt w.
  all: rewrite <- ?app_assoc; cbn [app].
  all: try (eexists; split; [reflexivity|]).
  all: try (exists []; split; [symmetry; apply app_nil_r|]).
  all: shape.
Qed.

Lemma attempt_cache tm jm kw w c :
  _cache (client w) = Some c ->
  exists c',
    _cache (client (snd (make_request_once tm jm kw w))) = Some c' /\
    (forall k, k <> orjson_dumps kw -> c' !! k = c !! k) /\
    (forall v, serializable (JObj kw) = true -> c !! orjson_dumps kw = Some v ->
       make_request_once tm jm kw w = (Ok v, emit (CacheLookup (orjson_dumps kw) true) w)) /\
    (forall v, fst (make_request_once tm jm kw w) = Ok v ->
       serializable (JObj kw) = true /\ c' !! orjson_dumps kw = Some v) /\
    (c !! orjson_dumps kw = None ->
       (forall v, fst (make_request_once tm jm kw w) <> Ok v) -> c' = c).
Proof.
  run_attempt w; intros [= <-]; eexists; (split; [reflexivity|]).
  all: repeat split; intros; simplify_eq/=; try done.
  all: try (by rewrite lookup_insert_ne).
  all: try (by rewrite lookup_insert_eq).
  all: try congruence.
  all: match goal with H : forall v, Ok ?a <> Ok v |- _ => by destruct (H a) end.
Qed.

Section LoopInvariant.
Context {St V : Type}.
Variable random : St -> Q * St.
Variable sleep : Q -> St -> St.
Variable retry_on : exn -> St -> Outcome bool * St.
Variable f : St -> Outcome V * St.
Variable I : St -> Prop.
Hypothesis I_attempt : forall s, I s -> I (snd (f s)).
Hypothesis I_classify : forall e s, I s -> I (snd (retry_on e s)).
Hypothesis I_random : forall s, I s -> I (snd (random s)).
Hypothesis I_sleep : forall d s, I s -> I (sleep d s).

(** An invariant of the four effects of the loop holds when the call
    ends. *)
Lemma retry_loop_invariant idxs : forall d s,
  I s -> I (final (retry_loop random sleep retry_on f idxs d s)).
Proof.
  induction idxs as [|i rest IH]; intros d s Hs; [exact Hs|].
  cbn [retry_loop]. pose proof (I_attempt s Hs) as H1.
  destruct (f s) as [[v|err|] s1]; cbn [snd] in H1; try exact H1.
  pose proof (I_classify err s1 H1) as H2.
  destruct (retry_on err s1) as [[b|e'|] s2]; cbn [snd] in H2; try exact H2.
  destruct (negb b || (i =? max_tries - 1)%nat); [exact H2|].
  unfold uniform. pose proof (I_random s2 H2) as H3.
  destruct (random s2) as [u s3]. cbn [snd final] in *.
  apply IH, I_sleep, H3.
Qed.

(** A call that returns a value ends with an attempt that returned
    it, made in a state where the invariant holds. *)
Lemma retry_loop_ok idxs : forall d s v,
  I s ->
  outcome (retry_loop random sleep retry_on f idxs d s) = Ok (Some v) ->
  exists s',
    I s' /\ f s' = (Ok v, final (retry_loop random sleep retry_on f idxs d s)).
Proof.
  induction idxs as [|i rest IH]; intros d s v Hs; [discriminate|].
  cbn [retry_loop]. pose proof (I_attempt s Hs) as H1.
  destruct (f s) as [[v'|err|] s1] eqn:Hf; cbn [snd] in H1; try discriminate.
  { intros [= ->]. exists s. split; [exact Hs|exact Hf]. }
  pose proof (I_classify err s1 H1) as H2.
  destruct (retry_on err s1) as [[b|e'|] s2]; cbn [snd] in H2; try discriminate.
  destruct (negb b || (i =? max_tries - 1)%nat); [discriminate|].
  unfold uniform. pose proof (I_random s2 H2) as H3.
  destruct (random s2) as [u s3]. cbn [snd final outcome] in *.
  apply IH, I_sleep, H3.
Qed.
End LoopInvariant.

Lemma same_setting_refl w : same_setting w w.
Proof. unfold same_setting. repeat split. Qed.

Lemma same_setting_trans w0 w1 w2 :
  same_setting w0 w1 -> same_setting w1 w2 -> same_setting w0 w2.
Proof. unfold same_setting. intuition congruence. Qed.

Lemma same_setting_request w0 w jm kw :
  same_setting w0 w -> request_of w jm kw = request_of w0 jm kw.
Proof.
  unfold same_setting, request_of, api_http_headers.
  intros (-> & -> & -> & -> & _). reflexivity.
Qed.

Lemma call_progress_attempt tm jm kw w0 w :
  call_progress tm jm kw w0 w ->
  call_progress tm jm kw w0 (snd (make_request_once tm jm kw w)).
Proof.
  intros [Hset (evs & Htr & Hshape)].
  pose proof (attempt_frame tm jm kw w) as Hframe.
  destruct (attempt_trace tm jm kw w) as (a & Ha & Hsh).
  split; [eapply same_setting_trans; eassumption|].
  exists (evs ++ a). split; [rewrite Ha, Htr; symmetry; apply app_assoc|].
  apply call_attempt; [exact Hshape|].
  rewrite (same_setting_request w0 w jm kw Hset) in Hsh.
  destruct Hset as (_ & _ & _ & _ & _ & _ & Hg & Hc).
  unfold gated in *. rewrite <- Hg, <- Hc. exact Hsh.
Qed.

Lemma call_progress_classify tm jm kw w0 w e :
  call_progress tm jm kw w0 w ->
  call_progress tm jm kw w0 (snd (classify e w)).
Proof.
  unfold classify. destruct (is_api_error e) as [ls o]. cbn [snd].
  destruct w. exact (fun H => H).
Qed.

Lemma call_progress_random tm jm kw w0 w :
  call_progress tm jm kw w0 w ->
  call_progress tm jm kw w0 (snd (random w)).
Proof. destruct w. exact (fun H => H). Qed.

Lemma call_progress_sleep tm jm kw w0 w d :
  call_progress tm jm kw w0 w ->
  call_progress tm jm kw w0 (sleep d w).
Proof.
  intros [Hset (evs & Htr & Hshape)]. split.
  - destruct w. exact Hset.
  - exists (evs ++ [Sleep d]). split.
    + unfold sleep, emit. cbn [trace]. rewrite Htr. symmetry; apply app_assoc.
    + now apply call_sleep.
Qed.

Lemma make_request_progress tm jm kw w :
  call_progress tm jm kw w (final (make_request tm jm kw w)).
Proof.
  unfold make_request, exponential_backoff, f_retry.
  apply retry_loop_invariant.
  - apply call_progress_attempt.
  - intros e s. apply call_progress_classify.
  - apply call_progress_random.
  - intros d s. apply call_progress_sleep.
  - split; [apply same_setting_refl|].
    exists []. split; [symmetry; apply app_nil_r|constructor].
Qed.

(** *** Consequences of the shape of a call *)

Lemma gate_run_app p evs1 evs2 :
  gate_run p (evs1 ++ evs2) =
    match gate_run p evs1 with Some q => gate_run q evs2 | None => None end.
Proof.
  revert p. induction evs1 as [|e evs1 IH]; intros p; [reflexivity|].
  cbn. destruct (gate_step p e); [apply IH|reflexivity].
Qed.

Lemma attempt_shape_gate cached key tm req a :
  attempt_shape cached true key tm req a -> gate_run Idle a = Some Idle.
Proof. intros H. destruct cached; inversion H; subst; try discriminate; reflexivity. Qed.

Lemma call_shape_gate cached key tm req evs :
  call_shape cached true key tm req evs -> gate_run Idle evs = Some Idle.
Proof.
  induction 1 as [|evs a _ IH Ha|evs d _ IH].
  - reflexivity.
  - rewrite gate_run_app, IH. eapply attempt_shape_gate, Ha.
  - rewrite gate_run_app, IH. reflexivity.
Qed.

Lemma posts_app evs1 evs2 : posts (evs1 ++ evs2) = posts evs1 ++ posts evs2.
Proof.
  induction evs1 as [|e evs1 IH]; [reflexivity|].
  destruct e; cbn; rewrite ?IH; reflexivity.
Qed.

Lemma attempt_shape_posts cached gate key tm req a :
  attempt_shape cached gate key tm req a -> posts a = [] \/ posts a = [req].
Proof.
  intros H. destruct cached, gate; inversion H; subst; try discriminate; cbn; auto.
Qed.

Lemma call_shape_posts cached gate key tm req evs :
  call_shape cached gate key tm req evs -> Forall (eq req) (posts evs).
Proof.
  induction 1 as [|evs a _ IH Ha|evs d _ IH].
  - constructor.
  - rewrite posts_app. apply Forall_app. split; [exact IH|].
    destruct (attempt_shape_posts _ _ _ _ _ _ Ha) as [-> | ->]; repeat constructor.
  - rewrite posts_app. cbn. now rewrite app_nil_r.
Qed.

Lemma held_after_app evs1 evs2 :
  held_after (evs1 ++ evs2) = (held_after evs1 + held_after evs2)%Z.
Proof.
  induction evs1 as [|e evs1 IH]; [reflexivity|].
  destruct e; cbn; rewrite ?IH; lia.
Qed.

(** In an accepted run the task holds one slot exactly in the phases
    between acquire and release. *)
Lemma gate_run_held evs : forall p q,
  gate_run p evs = Some q ->
  (held_after evs =
     (match q with Idle => 0 | _ => 1 end) - (match p with Idle => 0 | _ => 1 end))%Z.
Proof.
  induction evs as [|e evs IH]; intros p q H.
  - injection H as <-. cbn. lia.
  - cbn in H. destruct (gate_step p e) as [p'|] eqn:Hstep; [|discriminate].
    specialize (IH _ _ H).
    destruct p, e; try discriminate; injection Hstep as <-; cbn [held_after]; lia.
Qed.

Lemma gate_run_snoc p evs e q :
  gate_run p (evs ++ [e]) = Some q ->
  exists p', gate_run p evs = Some p' /\ gate_step p' e = Some q.
Proof.
  rewrite gate_run_app. destruct (gate_run p evs) as [p'|]; [|discriminate].
  cbn. destruct (gate_step p' e) as [q'|] eqn:H; [|discriminate].
  intros [= <-]. eauto.
Qed.

(** A request is sent only right after acquire and open, and is
    followed at once by close and release. *)
Lemma gate_run_post pre req post :
  gate_run Idle (pre ++ Post req :: post) = Some Idle ->
  exists pre' tm post',
    pre = pre' ++ [Acquire; ClientOpen tm] /\ post = ClientClose :: Release :: post'.
Proof.
  rewrite gate_run_app.
  destruct (gate_run Idle pre) as [p|] eqn:Hpre; [|discriminate].
  cbn [gate_run]. destruct (gate_step p (Post req)) as [q|] eqn:Hstep; [|discriminate].
  destruct p; try discriminate. injection Hstep as <-. intros Hpost.
  assert (exists pre' tm, pre = pre' ++ [Acquire; ClientOpen tm]) as (pre' & tm & ->).
  { destruct (exists_last (l := pre)) as (pre1 & e1 & ->).
    { intros ->. discriminate. }
    apply gate_run_snoc in Hpre as (p1 & Hpre1 & Hs1).
    destruct p1, e1; try discriminate.
    destruct (exists_last (l := pre1)) as (pre2 & e2 & ->).
    { intros ->. discriminate. }
    apply gate_run_snoc in Hpre1 as (p2 & Hpre2 & Hs2).
    destruct p2, e2; try discriminate.
    exists pre2, timeout. now rewrite <- app_assoc. }
  exists pre', tm.
  destruct post as [|e1 post]; [discriminate|]. cbn in Hpost.
  destruct e1; try discriminate.
  destruct post as [|e2 post]; [discriminate|]. cbn in Hpost.
  destruct e2; try discriminate.
  eauto.
Qed.

(** A sleep happens only with no slot held. *)
Lemma gate_run_sleep pre d post :
  gate_run Idle (pre ++ Sleep d :: post) = Some Idle ->
  held_after pre = 0%Z.
Proof.
  rewrite gate_run_app.
  destruct (gate_run Idle pre) as [p|] eqn:Hpre; [|discriminate].
  cbn [gate_run]. destruct (gate_step p (Sleep d)) as [q|] eqn:Hstep; [|discriminate].
  destruct p; try discriminate. intros _.
  now rewrite (gate_run_held _ _ _ Hpre).
Qed.

(** ** The cache *)

(** A call whose key is in the cache returns the cached value from its
    first attempt, which does nothing but look the key up. *)
Lemma make_request_cached tm jm kw w c v :
  _cache (client w) = Some c ->
  serializable (JObj kw) = true ->
  c !! orjson_dumps kw = Some v ->
  make_request tm jm kw w =
    mkRun (Ok (Some v)) (emit (CacheLookup (orjson_dumps kw) true) w) 1%nat [].
Proof.
  intros Hc Hkw Hv.
  destruct (attempt_cache tm jm kw w c Hc) as (_ & _ & _ & Hhit & _).
  unfold make_request, exponential_backoff, f_retry.
  change (seq 0 max_tries) with (0%nat :: seq 1 199).
  apply retry_loop_returns, Hhit; assumption.
Qed.

Lemma call_progress_start tm jm kw w : call_progress tm jm kw w w.
Proof.
  split; [apply same_setting_refl|].
  exists []. split; [symmetry; apply app_nil_r|constructor].
Qed.

Lemma retry_loop_stores tm jm kw idxs d w v :
  caching w = true ->
  outcome (retry_loop random sleep classify (make_request_once tm jm kw) idxs d w)
    = Ok (Some v) ->
  serializable (JObj kw) = true /\
  exists c,
    _cache (client (final (retry_loop random sleep classify
                             (make_request_once tm jm kw) idxs d w))) = Some c /\
    c !! orjson_dumps kw = Some v.
Proof.
  intros Hcaching Hok.
  destruct (retry_loop_ok random sleep classify (make_request_once tm jm kw)
              (call_progress tm jm kw w)
              (call_progress_attempt tm jm kw w)
              (fun e s => call_progress_classify tm jm kw w s e)
              (call_progress_random tm jm kw w)
              (fun d s => call_progress_sleep tm jm kw w s d)
              idxs d w v (call_progress_start tm jm kw w) Hok)
    as (w' & [Hset _] & Hlast).
  revert Hlast.
  generalize (final (retry_loop random sleep classify (make_request_once tm jm kw) idxs d w)).
  intros wf Hlast.
  destruct Hset as (_ & _ & _ & _ & _ & _ & _ & Hc).
  rewrite Hcaching in Hc. unfold caching in Hc.
  destruct (_cache (client w')) as [c|] eqn:Hcache; [|discriminate].
  destruct (attempt_cache tm jm kw w' c Hcache) as (c' & Hc' & _ & _ & Hstored & _).
  rewrite Hlast in Hc', Hstored. cbn [fst snd] in Hc', Hstored.
  destruct (Hstored v eq_refl) as [Hkw Hv].
  split; [exact Hkw|]. exists c'. split; [exact Hc'|exact Hv].
Qed.

Lemma make_request_stores tm jm kw w v :
  caching w = true ->
  outcome (make_request tm jm kw w) = Ok (Some v) ->
  serializable (JObj kw) = true /\
  exists c,
    _cache (client (final (make_request tm jm kw w))) = Some c /\
    c !! orjson_dumps kw = Some v.
Proof. apply retry_loop_stores. Qed.

(** C5: on a caching client, after one call with payload P has
    returned a value, a second call with payload P, whatever its
    timeout and JSON mode, returns that value from its first and only
    attempt; that attempt does nothing but look the key up, once, so
    nothing is acquired, nothing is sent and nothing is slept. *)
Theorem cache_hit_skips_dispatch tm1 jm1 tm2 jm2 kw w v :
  caching w = true ->
  outcome (make_request tm1 jm1 kw w) = Ok (Some v) ->
  let w1 := final (make_request tm1 jm1 kw w) in
  let second := make_request tm2 jm2 kw w1 in
  outcome second = Ok (Some v) /\
  attempts second = 1%nat /\
  slept second = [] /\
  trace (final second) = trace w1 ++ [CacheLookup (orjson_dumps kw) true] /\
  posted (final second) = posted w1 /\
  client (final second) = client w1.
Proof.
  intros Hcaching Hok. cbn zeta.
  destruct (make_request_stores tm1 jm1 kw w v Hcaching Hok) as (Hkw & c & Hc & Hv).
  revert Hc. generalize (final (make_request tm1 jm1 kw w)). intros w1 Hc.
  rewrite (make_request_cached tm2 jm2 kw w1 c v Hc Hkw Hv).
  repeat split.
Qed.

Lemma cache_hit_skips_dispatch_witness :
  let first := make_request None None payload_main world_cached in
  let second := make_request (Some 30) (Some true) payload_main (final first) in
  caching world_cached = true /\
  outcome first = Ok (Some (JObj (outgoing "gpt-3.5-turbo" None payload_main))) /\
  outcome second = outcome first /\
  posts (trace (final first)) = [request_of world_cached None payload_main] /\
  posts (trace (final second)) = posts (trace (final first)).
Proof.
  cbn zeta.
  assert (outcome (make_request None None payload_main world_cached)
          = Ok (Some (JObj (outgoing "gpt-3.5-turbo" None payload_main)))) as Hok.
  { vm_compute. reflexivity. }
  destruct (cache_hit_skips_dispatch None None (Some 30) (Some true) payload_main
              world_cached _ eq_refl Hok) as (Ho & _ & _ & Htr & _).
  split; [reflexivity|]. split; [exact Hok|].
  split; [rewrite Ho; symmetry; exact Hok|].
  split; [vm_compute; reflexivity|].
  rewrite Htr, posts_app. apply app_nil_r.
Defined.

(** ** The concurrency gate *)

(** C6: on a client with a concurrency gate, every request of a call is
    sent right after the slot is acquired and the HTTP client opened,
    and is followed at once, whether the network answered or failed, by
    closing the client and releasing the slot; no slot is held when the
    task sleeps, none is held when the call ends, and the gate has as
    many free slots after the call as before. *)
Theorem gate_held_only_around_a_request tm jm kw w :
  gated w = true ->
  let r := make_request tm jm kw w in
  exists evs,
    trace (final r) = trace w ++ evs /\
    (forall pre request post,
       evs = pre ++ Post request :: post ->
       exists pre' timeout post',
         pre = pre' ++ [Acquire; ClientOpen timeout] /\
         post = ClientClose :: Release :: post') /\
    (forall pre d post, evs = pre ++ Sleep d :: post -> held_after pre = 0) /\
    held_after evs = 0 /\
    _concurrency_check (client (final r)) = _concurrency_check (client w).
Proof.
  intros Hgated. cbn zeta.
  destruct (make_request_progress tm jm kw w) as [Hset (evs & Htr & Hshape)].
  rewrite Hgated in Hshape. apply call_shape_gate in Hshape.
  exists evs. split; [exact Htr|]. split; [|split; [|split]].
  - intros pre request post ->. eapply gate_run_post, Hshape.
  - intros pre d post ->. eapply gate_run_sleep, Hshape.
  - now rewrite (gate_run_held _ _ _ Hshape).
  - apply Hset.
Qed.

Lemma gate_held_only_around_a_request_witness :
  let w := world_of client_main remote_overloaded entropy_half in
  gated w = true /\
  exists evs,
    trace (final (make_request None None payload_main w)) = evs /\
    (forall pre d post, evs = pre ++ Sleep d :: post -> held_after pre = 0) /\
    firstn 5 evs =
      [Acquire; ClientOpen None; Post (request_of w None payload_main);
       ClientClose; Release] /\
    (exists d, nth_error evs 5 = Some (Sleep d) /\ (d == 1)%Q) /\
    nth_error evs 6 = Some Acquire /\
    length (posts evs) = 200%nat.
Proof.
  cbn zeta. split; [reflexivity|].
  destruct (gate_held_only_around_a_request None None payload_main
              (world_of client_main remote_overloaded entropy_half) eq_refl)
    as (evs & Htr & _ & Hsleep & _).
  exists evs. split; [exact Htr|]. split; [exact Hsleep|].
  change (trace (world_of client_main remote_overloaded entropy_half) ++ evs)
    with evs in Htr.
  rewrite <- Htr. split; [vm_compute; reflexivity|].
  split; [vm_compute; eexists; split; reflexivity|].
  split; vm_compute; reflexivity.
Defined.

(** ** Endpoint routing *)

(** C8: every request a call sends goes to the base URL followed by
    [/chat/completions] if and only if the payload has a field named
    [messages], and to the base URL followed by [/completions] if and
    only if it has none. *)
Theorem endpoint_follows_payload_shape tm jm kw w :
  let r := make_request tm jm kw w in
  let base := base_api_url (client w) in
  exists evs,
    trace (final r) = trace w ++ evs /\
    forall request, In request (posts evs) ->
      (req_url request = (base ++ "/chat/completions")%string
         <-> dict_mem "messages" kw = true) /\
      (req_url request = (base ++ "/completions")%string
         <-> dict_mem "messages" kw = false).
Proof.
  cbn zeta.
  destruct (make_request_progress tm jm kw w) as [_ (evs & Htr & Hshape)].
  exists evs. split; [exact Htr|]. intros request Hin.
  apply call_shape_posts in Hshape.
  pose proof (proj1 (List.Forall_forall _ _) Hshape) as Hall. clear Hshape.
  rename Hall into Hshape.
  rewrite <- (Hshape request Hin). unfold request_of, endpoint. cbn [req_url].
  destruct (dict_mem "messages" kw); split; split; intros H;
    try reflexivity; try discriminate; apply append_inj_l in H; discriminate.
Qed.

(** The two payload shapes of the specification, on the echoing remote. *)
Example endpoint_examples :
  List.map req_url
    (posts (trace (final (make_request None None payload_chat world_cached)))) =
    ["https://api.openai.com/v1/chat/completions"%string] /\
  List.map req_url
    (posts (trace (final (make_request None None payload_main world_cached)))) =
    ["https://api.openai.com/v1/completions"%string].
Proof. split; vm_compute; reflexivity. Qed.

(** ** Calls that miss the cache *)

Section LoopSuccess.
Context {St V : Type}.
Variable random : St -> Q * St.
Variable sleep : Q -> St -> St.
Variable retry_on : exn -> St -> Outcome bool * St.
Variable f : St -> Outcome V * St.
Variable I : St -> Prop.
Hypothesis I_raise : forall s err s1, I s -> f s = (Raise err, s1) -> I s1.
Hypothesis I_classify : forall e s, I s -> I (snd (retry_on e s)).
Hypothesis I_random : forall s, I s -> I (snd (random s)).
Hypothesis I_sleep : forall d s, I s -> I (sleep d s).

(** A call that returns a value ends with an attempt that returned
    it; an invariant of failed attempts, classifications, draws and
    sleeps holds when that attempt starts. *)
Lemma retry_loop_succeeds idxs : forall d s v,
  I s ->
  outcome (retry_loop random sleep retry_on f idxs d s) = Ok (Some v) ->
  exists s',
    I s' /\ f s' = (Ok v, final (retry_loop random sleep retry_on f idxs d s)).
Proof.
  induction idxs as [|i rest IH]; intros d s v Hs; [discriminate|].
  cbn [retry_loop].
  destruct (f s) as [[v'|err|] s1] eqn:Hf; try discriminate.
  { intros [= ->]. exists s. split; [exact Hs|exact Hf]. }
  pose proof (I_raise s err s1 Hs Hf) as H1.
  pose proof (I_classify err s1 H1) as H2.
  destruct (retry_on err s1) as [[b|e'|] s2]; cbn [snd] in H2; try discriminate.
  destruct (negb b || (i =? max_tries - 1)%nat); [discriminate|].
  unfold uniform. pose proof (I_random s2 H2) as H3.
  destruct (random s2) as [u s3]. cbn [snd final outcome] in *.
  apply IH, I_sleep, H3.
Qed.
End LoopSuccess.

Lemma attempt_miss tm jm kw w c v wf :
  _cache (client w) = Some c ->
  c !! orjson_dumps kw = None ->
  make_request_once tm jm kw w = (Ok v, wf) ->
  exists a,
    trace wf = trace w ++ a /\
    posts a = [request_of w jm kw] /\
    _cache (client wf) = Some (<[orjson_dumps kw := v]> c).
Proof.
  run_attempt w; intros [= <-] Hmiss [= <- <-]; simplify_eq/=.
  all: eexists; rewrite <- ?app_assoc; cbn [app]; (split; [reflexivity|]).
  all: split; reflexivity.
Qed.

Lemma attempt_raise_cache tm jm kw w err w1 :
  make_request_once tm jm kw w = (Raise err, w1) ->
  _cache (client w1) = _cache (client w).
Proof. run_attempt w; intros [= <- <-]; reflexivity. Qed.

Lemma classify_cache e w : _cache (client (snd (classify e w))) = _cache (client w).
Proof. unfold classify. destruct (is_api_error e). reflexivity. Qed.

Lemma retry_loop_miss tm jm kw idxs d w c v :
  _cache (client w) = Some c ->
  c !! orjson_dumps kw = None ->
  outcome (retry_loop random sleep classify (make_request_once tm jm kw) idxs d w)
    = Ok (Some v) ->
  exists evs,
    trace (final (retry_loop random sleep classify
                    (make_request_once tm jm kw) idxs d w)) = trace w ++ evs /\
    posts evs <> [] /\
    Forall (eq (request_of w jm kw)) (posts evs) /\
    _cache (client (final (retry_loop random sleep classify
                             (make_request_once tm jm kw) idxs d w)))
      = Some (<[orjson_dumps kw := v]> c).
Proof.
  intros Hc Hmiss Hok.
  destruct (retry_loop_succeeds random sleep classify (make_request_once tm jm kw)
              (missing tm jm kw c w)) with (idxs := idxs) (d := d) (s := w) (v := v)
    as (w' & [[Hset (evs & Htr & Hshape)] Hc'] & Hlast).
  - intros s err s1 [Hp Hcs] Hf. split.
    + pose proof (call_progress_attempt tm jm kw w s Hp) as H. now rewrite Hf in H.
    + now rewrite (attempt_raise_cache _ _ _ _ _ _ Hf).
  - intros e s [Hp Hcs]. split; [now apply call_progress_classify|].
    now rewrite classify_cache.
  - intros s [Hp Hcs]. split; [now apply call_progress_random|exact Hcs].
  - intros d' s [Hp Hcs]. split; [now apply call_progress_sleep|exact Hcs].
  - split; [apply call_progress_start|exact Hc].
  - exact Hok.
  - revert Hlast.
    generalize (final (retry_loop random sleep classify
                         (make_request_once tm jm kw) idxs d w)).
    intros wf Hlast.
    destruct (attempt_miss tm jm kw w' c v wf Hc' Hmiss Hlast) as (a & Ha & Hposts & Hcf).
    exists (evs ++ a). split; [rewrite Ha, Htr; symmetry; apply app_assoc|].
    rewrite posts_app, Hposts. split; [|split; [|exact Hcf]].
    + intros H. apply app_eq_nil in H as [_ H]. discriminate.
    + apply Forall_app. split; [eapply call_shape_posts, Hshape|].
      rewrite (same_setting_request w w' jm kw Hset). repeat constructor.
Qed.

Lemma make_request_miss tm jm kw w c v :
  _cache (client w) = Some c ->
  c !! orjson_dumps kw = None ->
  outcome (make_request tm jm kw w) = Ok (Some v) ->
  exists evs,
    trace (final (make_request tm jm kw w)) = trace w ++ evs /\
    posts evs <> [] /\
    Forall (eq (request_of w jm kw)) (posts evs) /\
    _cache (client (final (make_request tm jm kw w)))
      = Some (<[orjson_dumps kw := v]> c).
Proof. apply retry_loop_miss. Qed.

(** ** The cache key *)

Lemma call_shape_keys cached gate key tm req evs :
  call_shape cached gate key tm req evs ->
  forall e, In e evs ->
    match e with
    | CacheLookup k _ => k = key
    | CacheStore k _ => k = key
    | _ => True
    end.
Proof.
  induction 1 as [|evs a _ IH Ha|evs d _ IH]; intros e Hin.
  - destruct Hin.
  - apply in_app_or in Hin as [Hin|Hin]; [now apply IH|].
    destruct cached, gate; inversion Ha; subst; try discriminate;
      cbn in Hin; intuition (subst; auto).
  - apply in_app_or in Hin as [Hin|[<-|[]]]; [now apply IH|exact I].
Qed.

Lemma dict_get_set_eq k x d : dict_get k (dict_set k x d) = Some x.
Proof.
  induction d as [|[k' v'] d IH]; cbn.
  - now rewrite String.eqb_refl.
  - destruct (String.eqb k k') eqn:E; cbn; rewrite E; [reflexivity|exact IH].
Qed.

Lemma dict_get_set_ne k k' x d :
  k <> k' -> dict_get k (dict_set k' x d) = dict_get k d.
Proof.
  intros Hne. induction d as [|[k'' v''] d IH]; cbn.
  - destruct (String.eqb_spec k k'); [contradiction|reflexivity].
  - destruct (String.eqb_spec k' k'') as [<-|Hne']; cbn.
    + destruct (String.eqb_spec k k'); [contradiction|reflexivity].
    + destruct (String.eqb k k''); [reflexivity|exact IH].
Qed.

Lemma outgoing_model model jm kw :
  dict_get "model" (outgoing model jm kw) = Some (JStr model).
Proof.
  unfold outgoing. destruct jm as [[|]|]; try apply dict_get_set_eq.
  rewrite dict_get_set_ne by discriminate. apply dict_get_set_eq.
Qed.

(** C4 (as amended): the cache key is computed from the fields as the
    caller supplied them, before the model name is assigned and the
    response format is added.  Any two calls with the same fields in
    the same order, on whatever clients and with whatever timeout and
    JSON mode, use one and the same key in all their lookups and
    stores, although what each sends carries its own client's model
    name and, in JSON mode, the response format. *)
Theorem cache_key_of_supplied_fields tm1 jm1 w1 tm2 jm2 w2 kw :
  let r1 := make_request tm1 jm1 kw w1 in
  let r2 := make_request tm2 jm2 kw w2 in
  exists evs1 evs2,
    trace (final r1) = trace w1 ++ evs1 /\
    trace (final r2) = trace w2 ++ evs2 /\
    (forall k hit, In (CacheLookup k hit) (evs1 ++ evs2) -> k = orjson_dumps kw) /\
    (forall k v, In (CacheStore k v) (evs1 ++ evs2) -> k = orjson_dumps kw) /\
    (forall request, In request (posts evs1) ->
       req_json request = outgoing (model_name (client w1)) jm1 kw /\
       dict_get "model" (req_json request) = Some (JStr (model_name (client w1)))) /\
    (forall request, In request (posts evs2) ->
       req_json request = outgoing (model_name (client w2)) jm2 kw /\
       dict_get "model" (req_json request) = Some (JStr (model_name (client w2)))).
Proof.
  cbn zeta.
  destruct (make_request_progress tm1 jm1 kw w1) as [_ (evs1 & Htr1 & Hshape1)].
  destruct (make_request_progress tm2 jm2 kw w2) as [_ (evs2 & Htr2 & Hshape2)].
  exists evs1, evs2. split; [exact Htr1|]. split; [exact Htr2|].
  pose proof (call_shape_keys _ _ _ _ _ _ Hshape1) as Hkeys1.
  pose proof (call_shape_keys _ _ _ _ _ _ Hshape2) as Hkeys2.
  split; [|split; [|split]].
  - intros k hit Hin. apply in_app_or in Hin as [Hin|Hin];
      [exact (Hkeys1 _ Hin)|exact (Hkeys2 _ Hin)].
  - intros k v Hin. apply in_app_or in Hin as [Hin|Hin];
      [exact (Hkeys1 _ Hin)|exact (Hkeys2 _ Hin)].
  - intros request Hin. apply call_shape_posts in Hshape1.
    pose proof (proj1 (List.Forall_forall _ _) Hshape1 request Hin) as <-.
    split; [reflexivity|apply outgoing_model].
  - intros request Hin. apply call_shape_posts in Hshape2.
    pose proof (proj1 (List.Forall_forall _ _) Hshape2 request Hin) as <-.
    split; [reflexivity|apply outgoing_model].
Qed.

(** C4, as stated, fails: the payload of the entry point and the same
    two fields supplied in the other order hold the same field/value
    pairs and get different keys, so that the second call is sent to
    the remote although the first one was cached. *)
Lemma cache_key_depends_on_field_order :
  let p1 := payload_main in
  let p2 := payload_main_reordered in
  let second :=
    make_request None None p2 (final (make_request None None p1 world_cached)) in
  Permutation p1 p2 /\
  (forall k, dict_get k p1 = dict_get k p2) /\
  orjson_dumps p1 <> orjson_dumps p2 /\
  length (posts (trace (final second))) = 2%nat.
Proof.
  cbn zeta. split; [|split; [|split]].
  - apply perm_swap.
  - intros k. unfold payload_main, payload_main_reordered. cbn [dict_get].
    destruct (String.eqb_spec k "prompt") as [->|]; [reflexivity|].
    destruct (String.eqb k "max_tokens"); reflexivity.
  - intros H. apply orjson_dumps_inj in H. discriminate.
  - vm_compute. reflexivity.
Qed.

(** ** A model name supplied by the caller *)

Lemma dict_set_present k x m pre post :
  ~ In k (List.map fst pre) ->
  dict_set k x (pre ++ (k, m) :: post) = pre ++ (k, x) :: post.
Proof.
  induction pre as [|[k' v'] pre IH]; intros Hnot; cbn.
  - now rewrite String.eqb_refl.
  - destruct (String.eqb_spec k k') as [->|Hne].
    + destruct Hnot. now left.
    + rewrite IH; [reflexivity|]. intros Hin. apply Hnot. now right.
Qed.

Lemma dict_mem_value k k' m m' pre post :
  dict_mem k (pre ++ (k', m) :: post) = dict_mem k (pre ++ (k', m') :: post).
Proof.
  induction pre as [|[k'' v''] pre IH]; cbn; [reflexivity|].
  now rewrite IH.
Qed.

Lemma request_of_model w jm pre post m m' :
  ~ In "model"%string (List.map fst pre) ->
  request_of w jm (pre ++ ("model"%string, m) :: post) =
  request_of w jm (pre ++ ("model"%string, m') :: post).
Proof.
  intros Hnot. unfold request_of, endpoint, outgoing.
  rewrite !(dict_set_present _ _ _ _ _ Hnot).
  now rewrite (dict_mem_value "messages" "model" m m').
Qed.

(** C10: two calls on a caching client whose payloads differ only in
    the value of a caller-supplied [model] field have different cache
    keys, since the key is taken before the field is overwritten; when
    neither key is cached and both calls return, every request of
    either call is the same request, carrying the client's model name,
    and the cache ends with one entry for each key. *)
Theorem supplied_model_splits_cache tm jm pre post m1 m2 w c v1 v2 :
  ~ In "model"%string (List.map fst pre) ->
  m1 <> m2 ->
  let p1 := pre ++ ("model"%string, m1) :: post in
  let p2 := pre ++ ("model"%string, m2) :: post in
  _cache (client w) = Some c ->
  c !! orjson_dumps p1 = None ->
  c !! orjson_dumps p2 = None ->
  let first := make_request tm jm p1 w in
  let second := make_request tm jm p2 (final first) in
  outcome first = Ok (Some v1) ->
  outcome second = Ok (Some v2) ->
  orjson_dumps p1 <> orjson_dumps p2 /\
  request_of w jm p1 = request_of w jm p2 /\
  dict_get "model" (req_json (request_of w jm p1)) = Some (JStr (model_name (client w))) /\
  (exists evs1 evs2,
     trace (final first) = trace w ++ evs1 /\
     trace (final second) = trace (final first) ++ evs2 /\
     posts evs1 <> [] /\ posts evs2 <> [] /\
     Forall (eq (request_of w jm p1)) (posts evs1 ++ posts evs2)) /\
  exists c',
    _cache (client (final second)) = Some c' /\
    c' !! orjson_dumps p1 = Some v1 /\
    c' !! orjson_dumps p2 = Some v2.
Proof.
  intros Hnot Hm. cbn zeta. intros Hc Hmiss1 Hmiss2 Hok1 Hok2.
  assert (orjson_dumps (pre ++ ("model"%string, m1) :: post)
          <> orjson_dumps (pre ++ ("model"%string, m2) :: post)) as Hkeys.
  { intros H. apply orjson_dumps_inj, app_inv_head in H. congruence. }
  pose proof (request_of_model w jm pre post m1 m2 Hnot) as Hreq.
  destruct (make_request_miss _ _ _ _ _ _ Hc Hmiss1 Hok1)
    as (evs1 & Htr1 & Hne1 & Hall1 & Hc1).
  destruct (make_request_progress tm jm (pre ++ ("model"%string, m1) :: post) w)
    as [Hset _].
  revert Hok2 Htr1 Hc1 Hset.
  generalize (final (make_request tm jm (pre ++ ("model"%string, m1) :: post) w)).
  intros w1 Hok2 Htr1 Hc1 Hset.
  assert (<[orjson_dumps (pre ++ ("model"%string, m1) :: post) := v1]> c
          !! orjson_dumps (pre ++ ("model"%string, m2) :: post) = None) as Hmiss2'.
  { now rewrite lookup_insert_ne. }
  destruct (make_request_miss _ _ _ _ _ _ Hc1 Hmiss2' Hok2)
    as (evs2 & Htr2 & Hne2 & Hall2 & Hc2).
  rewrite (same_setting_request w w1 jm _ Hset), <- Hreq in Hall2.
  split; [exact Hkeys|]. split; [exact Hreq|]. split; [apply outgoing_model|].
  split.
  - exists evs1, evs2. repeat split; try assumption.
    apply Forall_app. split; assumption.
  - eexists. split; [exact Hc2|]. split.
    + rewrite lookup_insert_ne by congruence. apply lookup_insert_eq.
    + apply lookup_insert_eq.
Qed.

Lemma supplied_model_splits_cache_witness :
  let p1 := payload_main ++ [("model"%string, JStr "gpt-4")] in
  let p2 := payload_main ++ [("model"%string, JStr "davinci-002")] in
  let first := make_request None None p1 world_cached in
  let second := make_request None None p2 (final first) in
  orjson_dumps p1 <> orjson_dumps p2 /\
  posts (trace (final second)) =
    [request_of world_cached None payload_main;
     request_of world_cached None payload_main] /\
  exists c',
    _cache (client (final second)) = Some c' /\
    is_Some (c' !! orjson_dumps p1) /\ is_Some (c' !! orjson_dumps p2).
Proof.
  cbn zeta.
  destruct (supplied_model_splits_cache None None payload_main [] (JStr "gpt-4")
              (JStr "davinci-002") world_cached ∅
              (JObj (outgoing "gpt-3.5-turbo" None payload_main))
              (JObj (outgoing "gpt-3.5-turbo" None payload_main)))
    as (Hkeys & _ & _ & _ & c' & Hc' & H1 & H2).
  - vm_compute. intuition discriminate.
  - discriminate.
  - reflexivity.
  - apply lookup_empty.
  - apply lookup_empty.
  - vm_compute. reflexivity.
  - vm_compute. reflexivity.
  - split; [exact Hkeys|]. split; [vm_compute; reflexivity|].
    exists c'. split; [exact Hc'|]. split; eexists; eassumption.
Defined.


(** * Further properties of the code *)

(** ** Verdicts of the classifier *)

(** X1: the classifier answers "do not retry" for exactly one kind of
    failure: an HTTP error response with status 400, 404 or 415 whose
    body carries a readable [error.type] other than
    [idempotency_error]. *)
Theorem is_api_error_fatal_iff (err : exn) :
  snd (is_api_error err) = Ok false <->
  exists r ty,
    err = HTTPStatusError r /\
    invalid_request_status (status_code r) = true /\
    error_type (body r) = Some ty /\
    is_idempotency_error ty = false.
Proof.
  split.
  - destruct err as [r| | | | | | | |]; try discriminate.
    unfold is_api_error, response_json.
    destruct (body r) as [[| | | | |d]| |] eqn:Hb; try discriminate. cbn [py_get].
    destruct (dict_get "error" d) as [[| | | | |e]|] eqn:He; try discriminate;
      cbn [py_get dict_get is_idempotency_error];
      destruct (invalid_request_status (status_code r)) eqn:Hs; try discriminate.
    + destruct (is_idempotency_error
                  match dict_get "type" e with Some v => v | None => JNull end) eqn:Hi;
        [discriminate|].
      intros _. eexists r, _. unfold error_type. rewrite Hb, He.
      repeat split; [exact Hs|exact Hi].
    + intros _. exists r, JNull. unfold error_type. rewrite Hb, He.
      repeat split. exact Hs.
  - intros (r & ty & -> & Hs & Hty & Hi).
    unfold is_api_error, response_json. unfold error_type in Hty.
    destruct (body r) as [[| | | | |d]| |]; try discriminate. cbn [py_get].
    destruct (dict_get "error" d) as [[| | | | |e]|]; try discriminate;
      injection Hty as <-; cbn [py_get dict_get is_idempotency_error];
      rewrite Hs.
    + now rewrite Hi.
    + reflexivity.
Qed.

(** X2: the classifier itself raises for exactly one kind of failure:
    an HTTP error response whose body carries no readable
    [error.type]; it raises the JSON decoding error when the body is
    text that is not JSON, the Unicode decoding error when the body is
    no text at all, and an attribute error when the body, or its
    [error] member, is JSON of another shape.  It never stays
    suspended. *)
Theorem is_api_error_raises_iff (err e : exn) :
  (snd (is_api_error err) = Raise e <->
   exists r,
     err = HTTPStatusError r /\
     error_type (body r) = None /\
     e = match body r with
         | TextBody _ => JSONDecodeError
         | RawBody _ => UnicodeDecodeError
         | JsonBody _ => AttributeError
         end) /\
  snd (is_api_error err) <> Blocked.
Proof.
  assert (forall r', err = HTTPStatusError r' ->
            (snd (is_api_error err) = Raise e <->
             error_type (body r') = None /\
             e = match body r' with
                 | TextBody _ => JSONDecodeError
                 | RawBody _ => UnicodeDecodeError
                 | JsonBody _ => AttributeError
                 end) /\
            snd (is_api_error err) <> Blocked) as Hhttp.
  { intros r ->. unfold is_api_error, response_json, error_type.
    destruct (body r) as [[| | | | |d]| |]; cbn [py_get snd];
      try (split; [split; [now intros [= <-]|now intros [_ ->]]|discriminate]).
    destruct (dict_get "error" d) as [[| | | | |x]|]; cbn [py_get dict_get snd];
      try (split; [split; [now intros [= <-]|now intros [_ ->]]|discriminate]).
    - destruct (invalid_request_status (status_code r));
        [destruct (is_idempotency_error _)|];
        (split; [split; [discriminate|now intros [? _]]|discriminate]).
    - destruct (invalid_request_status (status_code r));
        (split; [split; [discriminate|now intros [? _]]|discriminate]). }
  destruct err as [r| | | | | | | |].
  1: { destruct (Hhttp r eq_refl) as [Hiff Hnb]. split; [|exact Hnb].
       rewrite Hiff. split.
       - intros [H1 H2]. exists r. auto.
       - intros (r' & [= <-] & H1 & H2). auto. }
  all: split; [split; [discriminate|intros (r' & ? & _); discriminate]|discriminate].
Qed.

(** ** How a call can end *)

Section LoopEnds.
Context {St V : Type}.
Variable random : St -> Q * St.
Variable sleep : Q -> St -> St.
Variable retry_on : exn -> St -> Outcome bool * St.
Variable f : St -> Outcome V * St.

Local Abbreviation loop := (retry_loop random sleep retry_on f).
Local Abbreviation step := (retried_attempt random sleep retry_on f).

(** Over the indices from [i] to the last one, the loop makes at least
    one and at most as many attempts as there are indices, sleeps
    between attempts only, and does not run out. *)
Lemma retry_loop_counts n : forall i d s,
  (i + S n = max_tries)%nat ->
  let r := loop (seq i (S n)) d s in
  (1 <= attempts r <= S n)%nat /\
  length (slept r) = (attempts r - 1)%nat /\
  outcome r <> Ok None.
Proof.
  induction n as [|n IH]; intros i d s Hi; cbn zeta.
  - assert (i = max_tries - 1)%nat as -> by (unfold max_tries in *; lia).
    change (seq (max_tries - 1) 1) with [(max_tries - 1)%nat]. cbn [retry_loop].
    destruct (f s) as [[v|err|] s1]; [cbn; repeat split; try lia; discriminate| |
                                      cbn; repeat split; try lia; discriminate].
    destruct (retry_on err s1) as [[b|e'|] s2];
      [|cbn; repeat split; try lia; discriminate..].
    rewrite Nat.eqb_refl, orb_true_r. cbn. repeat split; try lia; discriminate.
  - change (seq i (S (S n))) with (i :: seq (S i) (S n)). cbn [retry_loop].
    destruct (f s) as [[v|err|] s1]; [cbn; repeat split; try lia; discriminate| |
                                      cbn; repeat split; try lia; discriminate].
    destruct (retry_on err s1) as [[b|e'|] s2];
      [|cbn; repeat split; try lia; discriminate..].
    destruct (negb b || (i =? max_tries - 1)%nat);
      [cbn; repeat split; try lia; discriminate|].
    destruct (uniform random _ _ s2) as [j s3].
    specialize (IH (S i)
                  (Qmin (d * backoff_multiplier) max_delay_s) (sleep j s3) ltac:(lia)).
    cbn zeta in IH. destruct IH as ([H1 H2] & H3 & H4).
    cbn [attempts slept outcome length]. repeat split; try lia. exact H4.
Qed.

End LoopEnds.

(** X4: whatever the operation and the classifier do, a call invokes
    the operation at least once and at most 200 times, sleeps exactly
    once between two consecutive invocations, and never ends by
    falling out of the loop with no value. *)
Theorem call_makes_between_1_and_200_attempts {St V : Type}
    (random : St -> Q * St) (sleep : Q -> St -> St)
    (retry_on : exn -> St -> Outcome bool * St) (f : St -> Outcome V * St) (s : St) :
  let r := exponential_backoff random sleep retry_on f s in
  (1 <= attempts r <= 200)%nat /\
  length (slept r) = (attempts r - 1)%nat /\
  outcome r <> Ok None.
Proof.
  exact (retry_loop_counts random sleep retry_on f 199 0%nat init_delay_s s eq_refl).
Qed.

(** X5: when the first [k] attempts fail transiently and the next one
    returns [v], the call returns [v] after [k + 1] invocations and
    [k] sleeps, which are the first [k] jittered delays of the
    schedule, and leaves the state as the successful attempt left
    it. *)
Theorem succeeds_after_transient_failures {St V : Type}
    (random : St -> Q * St) (sleep : Q -> St -> St)
    (retry_on : exn -> St -> Outcome bool * St) (f : St -> Outcome V * St)
    (s : St) (k : nat) (v : V) :
  (k < max_tries)%nat ->
  (forall j, (j < k)%nat ->
     transient_failure retry_on f
       (snd (before_attempt random sleep retry_on f j s)) = true) ->
  fst (f (snd (before_attempt random sleep retry_on f k s))) = Ok v ->
  let r := exponential_backoff random sleep retry_on f s in
  outcome r = Ok (Some v) /\
  attempts r = S k /\
  final r = snd (f (snd (before_attempt random sleep retry_on f k s))) /\
  slept r =
    List.map (fun j => fst (jittered random retry_on f
                              (before_attempt random sleep retry_on f j s)))
      (seq 0 k).
Proof.
  intros Hk Hfail Hok. cbn zeta. unfold exponential_backoff, f_retry, before_attempt in *.
  replace (seq 0 max_tries) with (seq 0 k ++ seq k (max_tries - k))
    by (rewrite <- seq_app; f_equal; lia).
  rewrite retry_loop_prefix; [|lia|exact Hfail].
  destruct (max_tries - k)%nat as [|m] eqn:Hm; [lia|].
  change (seq k (S m)) with (k :: seq (S k) m).
  destruct (Nat.iter k (retried_attempt random sleep retry_on f) (init_delay_s, s))
    as [dk sk]. cbn [fst snd] in *.
  destruct (f sk) as [o s1] eqn:Hf. cbn [fst] in Hok. subst o.
  rewrite (retry_loop_returns random sleep retry_on f _ _ _ _ _ _ Hf).
  cbn [outcome final attempts slept snd]. rewrite app_nil_r.
  repeat split. lia.
Qed.

(** X6: when the first [k] attempts fail transiently and the next one
    fails with an error the classifier calls fatal, the call raises
    that error after [k + 1] invocations and [k] sleeps; nothing is
    slept after the fatal attempt. *)
Theorem fatal_error_ends_the_retries {St V : Type}
    (random : St -> Q * St) (sleep : Q -> St -> St)
    (retry_on : exn -> St -> Outcome bool * St) (f : St -> Outcome V * St)
    (s : St) (k : nat) (err : exn) :
  (k < max_tries)%nat ->
  (forall j, (j < k)%nat ->
     transient_failure retry_on f
       (snd (before_attempt random sleep retry_on f j s)) = true) ->
  let sk := snd (before_attempt random sleep retry_on f k s) in
  fst (f sk) = Raise err ->
  fst (retry_on err (snd (f sk))) = Ok false ->
  let r := exponential_backoff random sleep retry_on f s in
  outcome r = Raise err /\
  attempts r = S k /\
  final r = snd (retry_on err (snd (f sk))) /\
  length (slept r) = k.
Proof.
  intros Hk Hfail. cbn zeta. intros Herr Hfatal.
  unfold exponential_backoff, f_retry, before_attempt in *.
  replace (seq 0 max_tries) with (seq 0 k ++ seq k (max_tries - k))
    by (rewrite <- seq_app; f_equal; lia).
  rewrite retry_loop_prefix; [|lia|exact Hfail].
  destruct (max_tries - k)%nat as [|m] eqn:Hm; [lia|].
  change (seq k (S m)) with (k :: seq (S k) m).
  destruct (Nat.iter k (retried_attempt random sleep retry_on f) (init_delay_s, s))
    as [dk sk]. cbn [fst snd] in *.
  destruct (f sk) as [o s1] eqn:Hf. cbn [fst snd] in *. subst o.
  destruct (retry_on err s1) as [o s2] eqn:Hc. cbn [fst snd] in *. subst o.
  rewrite (retry_loop_fatal random sleep retry_on f _ _ _ _ _ _ _ Hf Hc).
  cbn [outcome final attempts slept]. rewrite app_nil_r, length_map, length_seq.
  repeat split. lia.
Qed.

Lemma succeeds_after_transient_failures_witness :
  let w := world_of client_main remote_flaky entropy_half in
  let r := make_request None None payload_main w in
  outcome r = Ok (Some (JObj (outgoing "gpt-3.5-turbo" None payload_main))) /\
  attempts r = 4%nat /\
  length (slept r) = 3%nat.
Proof.
  cbn zeta.
  destruct (succeeds_after_transient_failures random sleep classify
              (make_request_once None None payload_main)
              (world_of client_main remote_flaky entropy_half) 3
              (JObj (outgoing "gpt-3.5-turbo" None payload_main)))
    as (Ho & Ha & _ & Hs).
  - unfold max_tries. lia.
  - intros j Hj. unfold before_attempt.
    apply (failing_from_spec random sleep classify
             (make_request_once None None payload_main) 3); [|exact Hj].
    vm_compute. reflexivity.
  - vm_compute. reflexivity.
  - unfold make_request. rewrite Ho, Ha, Hs, length_map, length_seq. repeat split.
Defined.

Lemma fatal_error_ends_the_retries_witness :
  let w := world_of client_main remote_rejecting entropy_half in
  let r := make_request None None payload_main w in
  outcome r =
    Raise (HTTPStatusError
             (mkResponse 400 "https://api.openai.com/v1/completions"
                (error_body "invalid_request_error" 2))) /\
  attempts r = 3%nat /\
  length (slept r) = 2%nat.
Proof.
  cbn zeta.
  destruct (fatal_error_ends_the_retries random sleep classify
              (make_request_once None None payload_main)
              (world_of client_main remote_rejecting entropy_half) 2
              (HTTPStatusError
                 (mkResponse 400 "https://api.openai.com/v1/completions"
                    (error_body "invalid_request_error" 2))))
    as (Ho & Ha & _ & Hs).
  - unfold max_tries. lia.
  - intros j Hj. unfold before_attempt.
    apply (failing_from_spec random sleep classify
             (make_request_once None None payload_main) 2); [|exact Hj].
    vm_compute. reflexivity.
  - vm_compute. reflexivity.
  - vm_compute. reflexivity.
  - unfold make_request. rewrite Ho, Ha, Hs. repeat split.
Defined.

(** X3: when the first attempt fails with an HTTP error response whose
    body carries [error.type] equal to [idempotency_error], whatever
    the status, the classifier says retry: the call sleeps and makes at
    least a second attempt. *)
Theorem idempotency_error_is_retried {V : Type}
    (f : World -> Outcome V * World) (w : World) (r : Response) :
  fst (f w) = Raise (HTTPStatusError r) ->
  error_type (body r) = Some (JStr "idempotency_error") ->
  let run := exponential_backoff random sleep classify f w in
  snd (is_api_error (HTTPStatusError r)) = Ok true /\
  (2 <= attempts run)%nat /\
  slept run <> [].
Proof.
  intros Hf Hty. cbn zeta.
  assert (snd (is_api_error (HTTPStatusError r)) = Ok true) as Hverdict.
  { unfold is_api_error, response_json. unfold error_type in Hty.
    destruct (body r) as [[| | | | |d]| |]; try discriminate. cbn [py_get].
    destruct (dict_get "error" d) as [[| | | | |e]|]; try discriminate.
    injection Hty as Hty. cbn [py_get]. rewrite Hty.
    destruct (invalid_request_status (status_code r)); reflexivity. }
  split; [exact Hverdict|].
  assert (transient_failure classify f w = true) as Htransient.
  { unfold transient_failure, classify.
    destruct (f w) as [o s1]. cbn [fst] in Hf. subst o.
    destruct (is_api_error (HTTPStatusError r)) as [ls o]. cbn [snd] in Hverdict.
    now subst o. }
  unfold exponential_backoff, f_retry.
  change (seq 0 max_tries) with (0%nat :: seq 1 199).
  rewrite retry_loop_retries; [|exact Htransient|discriminate].
  cbn [attempts slept].
  destruct (retry_loop_counts random sleep classify f 198 1%nat
              (fst (retried_attempt random sleep classify f (init_delay_s, w)))
              (snd (retried_attempt random sleep classify f (init_delay_s, w)))
              eq_refl) as ([H1 _] & _).
  split; [lia|discriminate].
Qed.

Lemma idempotency_error_is_retried_witness :
  let w := world_of client_main remote_idempotency entropy_half in
  let r := make_request None None payload_main w in
  (2 <= attempts r)%nat /\
  outcome r = Ok (Some (JObj (outgoing "gpt-3.5-turbo" None payload_main))).
Proof.
  cbn zeta.
  destruct (idempotency_error_is_retried
              (make_request_once None None payload_main)
              (world_of client_main remote_idempotency entropy_half)
              (mkResponse 400 "https://api.openai.com/v1/completions"
                 (error_body "idempotency_error" 0)))
    as (_ & Ha & _).
  - vm_compute. reflexivity.
  - reflexivity.
  - split; [exact Ha|]. vm_compute. reflexivity.
Defined.

(** ** The time spent backing off *)

Lemma total_sleep_bounds (g lo hi : nat -> Q) (l : list nat) :
  (forall k, In k l -> (lo k <= g k <= hi k)%Q) ->
  (total_sleep (List.map lo l) <= total_sleep (List.map g l)
   <= total_sleep (List.map hi l))%Q.
Proof.
  induction l as [|k l IH]; intros H; cbn [List.map total_sleep fold_right].
  - split; apply Qle_refl.
  - destruct (H k (or_introl eq_refl)) as [H1 H2].
    destruct IH as [H3 H4]; [intros j Hj; apply H; now right|].
    unfold total_sleep in *. split; apply Qplus_le_compat; assumption.
Qed.

(** X7: under a persistently failing transient condition with draws in
    range, the sleeps of a call add up to between 1572 and 2358
    seconds, that is 80% and 120% of the 1965 seconds of the nominal
    schedule: the call gives up after some 26 to 40 minutes spent
    backing off. *)
Theorem call_gives_up_after_half_an_hour {St V : Type}
    (random : St -> Q * St) (sleep : Q -> St -> St)
    (retry_on : exn -> St -> Outcome bool * St) (f : St -> Outcome V * St) (s : St) :
  persistently_failing random sleep retry_on f s ->
  draws_in_range random sleep retry_on f s ->
  let r := exponential_backoff random sleep retry_on f s in
  (total_sleep (List.map nominal_delay (seq 0 199)) == 1965)%Q /\
  (1572 <= total_sleep (slept r) <= 2358)%Q.
Proof.
  intros Hfail Hdraw. cbn zeta.
  split; [vm_compute; reflexivity|].
  destruct (retry_loop_failing random sleep retry_on f 199 0%nat init_delay_s s)
    as (_ & Hs & _).
  { reflexivity. }
  { intros k Hk. apply Hfail. unfold max_tries. lia. }
  unfold exponential_backoff, f_retry.
  change (seq 0 max_tries) with (seq 0 200). rewrite Hs.
  pose proof (total_sleep_bounds
                (fun k => fst (jittered random retry_on f
                                 (Nat.iter k (retried_attempt random sleep retry_on f)
                                    (init_delay_s, s))))
                (fun k => nominal_delay k * 0.8)%Q
                (fun k => nominal_delay k * 1.2)%Q (seq 0 199)) as [Hlo Hhi].
  { intros k Hk. apply in_seq in Hk.
    pose proof (delay_before_attempt random sleep retry_on f k s) as Hd.
    assert (k < max_tries)%nat as Hk' by (unfold max_tries; lia).
    pose proof (Hdraw k Hk') as Hu. unfold before_attempt in *.
    destruct (Nat.iter k (retried_attempt random sleep retry_on f) (init_delay_s, s))
      as [d sk]. cbn [fst snd] in *.
    rewrite <- Hd. apply jittered_within_band; [|exact Hu].
    rewrite Hd. apply Qlt_le_weak, nominal_delay_positive. }
  split.
  - eapply Qle_trans; [|exact Hlo]. apply Qle_bool_iff. vm_compute. reflexivity.
  - eapply Qle_trans; [exact Hhi|]. apply Qle_bool_iff. vm_compute. reflexivity.
Qed.

Lemma call_gives_up_after_half_an_hour_witness :
  let w := world_of client_main remote_overloaded entropy_dip in
  (1572 <= total_sleep (slept (make_request None None payload_main w)) <= 2358)%Q.
Proof.
  cbn zeta.
  apply (call_gives_up_after_half_an_hour random sleep classify
           (make_request_once None None payload_main)
           (world_of client_main remote_overloaded entropy_dip)).
  - apply persistently_failing_check. vm_compute. reflexivity.
  - apply draws_in_range_check. vm_compute. reflexivity.
Defined.

(** ** Counting along a call *)

Section LoopMeasure.
Context {St V : Type}.
Variable random : St -> Q * St.
Variable sleep : Q -> St -> St.
Variable retry_on : exn -> St -> Outcome bool * St.
Variable f : St -> Outcome V * St.
Variable I : St -> Prop.
Variable m : St -> nat.
Hypothesis attempt_counts : forall s, I s -> I (snd (f s)) /\ m (snd (f s)) = S (m s).
Hypothesis classify_keeps : forall e s, I s -> I (snd (retry_on e s)) /\ m (snd (retry_on e s)) = m s.
Hypothesis random_keeps : forall s, I s -> I (snd (random s)) /\ m (snd (random s)) = m s.
Hypothesis sleep_keeps : forall d s, I s -> I (sleep d s) /\ m (sleep d s) = m s.

(** A quantity that every attempt raises by one and nothing else
    changes has grown, when the call ends, by the number of
    attempts. *)
Lemma retry_loop_measure idxs : forall d s,
  I s ->
  m (final (retry_loop random sleep retry_on f idxs d s)) =
    (m s + attempts (retry_loop random sleep retry_on f idxs d s))%nat.
Proof.
  induction idxs as [|i rest IH]; intros d s Hs; cbn [retry_loop].
  { cbn. lia. }
  destruct (attempt_counts s Hs) as [H1 E1].
  destruct (f s) as [[v|err|] s1]; cbn [snd] in *; try (cbn; lia).
  destruct (classify_keeps err s1 H1) as [H2 E2].
  destruct (retry_on err s1) as [[b|e'|] s2]; cbn [snd] in *; try (cbn; lia).
  destruct (negb b || (i =? max_tries - 1)%nat); [cbn; lia|].
  unfold uniform. destruct (random_keeps s2 H2) as [H3 E3].
  destruct (random s2) as [u s3]. cbn [snd final attempts] in *.
  destruct (sleep_keeps (d * (1 - jitter) + (d * (1 + jitter) - d * (1 - jitter)) * u)%Q
              s3 H3) as [H4 E4].
  rewrite IH by exact H4. lia.
Qed.
End LoopMeasure.

Lemma lookups_app evs1 evs2 : lookups (evs1 ++ evs2) = (lookups evs1 + lookups evs2)%nat.
Proof.
  induction evs1 as [|e evs1 IH]; [reflexivity|].
  destruct e; cbn; rewrite ?IH; reflexivity.
Qed.

Lemma same_setting_caching w0 w : same_setting w0 w -> caching w = caching w0.
Proof. intros H. apply H. Qed.

Lemma same_setting_free_slot w0 w : same_setting w0 w -> free_slot w = free_slot w0.
Proof.
  intros (_ & _ & _ & _ & _ & _ & Hg & _). unfold free_slot. now rewrite Hg.
Qed.

Lemma same_setting_classify w e : same_setting w (snd (classify e w)).
Proof.
  unfold classify. destruct (is_api_error e). destruct w.
  unfold same_setting. repeat split.
Qed.

Lemma same_setting_random w : same_setting w (snd (random w)).
Proof. destruct w. unfold same_setting. repeat split. Qed.

Lemma same_setting_sleep d w : same_setting w (sleep d w).
Proof. destruct w. unfold same_setting. repeat split. Qed.

Lemma attempt_lookups tm jm kw w :
  caching w = true ->
  serializable (JObj kw) = true ->
  lookups (trace (snd (make_request_once tm jm kw w))) = S (lookups (trace w)).
Proof.
  run_attempt w; intros Hc Hkw; try discriminate.
  all: rewrite ?lookups_app; cbn; lia.
Qed.

Lemma retry_loop_lookups tm jm kw idxs d w :
  caching w = true ->
  serializable (JObj kw) = true ->
  lookups (trace (final (retry_loop random sleep classify
                           (make_request_once tm jm kw) idxs d w))) =
    (lookups (trace w)
     + attempts (retry_loop random sleep classify
                   (make_request_once tm jm kw) idxs d w))%nat.
Proof.
  intros Hc Hkw.
  apply (retry_loop_measure random sleep classify (make_request_once tm jm kw)
           (fun w' => same_setting w w') (fun w' => lookups (trace w'))).
  - intros s Hs. split.
    + eapply same_setting_trans; [exact Hs|apply attempt_frame].
    + apply attempt_lookups; [|exact Hkw]. now rewrite (same_setting_caching w s Hs).
  - intros e s Hs. split.
    + eapply same_setting_trans; [exact Hs|apply same_setting_classify].
    + unfold classify. now destruct (is_api_error e).
  - intros s Hs. split; [|reflexivity].
    eapply same_setting_trans; [exact Hs|apply same_setting_random].
  - intros d' s Hs. split.
    + eapply same_setting_trans; [exact Hs|apply same_setting_sleep].
    + unfold sleep, emit. cbn [trace]. rewrite lookups_app. cbn. lia.
  - apply same_setting_refl.
Qed.

(** X9: on a caching client, for a payload that can be serialised, the
    key is looked up at the start of every attempt, not once per call:
    a call makes as many lookups as attempts. *)
Theorem cache_is_looked_up_in_every_attempt tm jm kw w :
  caching w = true ->
  serializable (JObj kw) = true ->
  let r := make_request tm jm kw w in
  lookups (trace (final r)) = (lookups (trace w) + attempts r)%nat.
Proof. apply retry_loop_lookups. Qed.

Lemma cache_is_looked_up_in_every_attempt_witness :
  let w := world_of client_caching remote_overloaded entropy_half in
  lookups (trace (final (make_request None None payload_main w))) = 200%nat.
Proof.
  cbn zeta.
  rewrite (cache_is_looked_up_in_every_attempt None None payload_main
             (world_of client_caching remote_overloaded entropy_half) eq_refl eq_refl).
  vm_compute. reflexivity.
Defined.

Lemma attempt_sends_one tm jm kw w :
  _cache (client w) = None ->
  free_slot w = true ->
  posts (trace (snd (make_request_once tm jm kw w))) =
    posts (trace w) ++ [request_of w jm kw].
Proof.
  unfold free_slot.
  run_attempt w; intros Hc Hf; try discriminate; try congruence.
  all: rewrite ?posts_app; cbn; rewrite ?app_nil_r; reflexivity.
Qed.

Lemma retry_loop_sends tm jm kw idxs d w :
  _cache (client w) = None ->
  free_slot w = true ->
  length (posts (trace (final (retry_loop random sleep classify
                                 (make_request_once tm jm kw) idxs d w)))) =
    (length (posts (trace w))
     + attempts (retry_loop random sleep classify
                   (make_request_once tm jm kw) idxs d w))%nat.
Proof.
  intros Hc Hfree.
  assert (caching w = false) as Hcaching by (unfold caching; now rewrite Hc).
  apply (retry_loop_measure random sleep classify (make_request_once tm jm kw)
           (fun w' => same_setting w w') (fun w' => length (posts (trace w')))).
  - intros s Hs. split.
    + eapply same_setting_trans; [exact Hs|apply attempt_frame].
    + rewrite attempt_sends_one.
      * rewrite length_app. cbn. lia.
      * pose proof (same_setting_caching w s Hs) as Hcs. rewrite Hcaching in Hcs.
        unfold caching in Hcs.
        destruct (_cache (client s)); [discriminate|reflexivity].
      * now rewrite (same_setting_free_slot w s Hs).
  - intros e s Hs. split.
    + eapply same_setting_trans; [exact Hs|apply same_setting_classify].
    + unfold classify. now destruct (is_api_error e).
  - intros s Hs. split; [|reflexivity].
    eapply same_setting_trans; [exact Hs|apply same_setting_random].
  - intros d' s Hs. split.
    + eapply same_setting_trans; [exact Hs|apply same_setting_sleep].
    + unfold sleep, emit. cbn [trace]. rewrite posts_app. cbn. now rewrite app_nil_r.
  - apply same_setting_refl.
Qed.

(** X10: on a client without cache whose gate, if any, has a free
    slot, every attempt sends exactly one request: a call sends as
    many requests as it makes attempts, and the client still has no
    cache afterwards. *)
Theorem uncached_call_sends_one_request_per_attempt tm jm kw w :
  _cache (client w) = None ->
  free_slot w = true ->
  let r := make_request tm jm kw w in
  length (posts (trace (final r))) = (length (posts (trace w)) + attempts r)%nat /\
  _cache (client (final r)) = None.
Proof.
  intros Hc Hfree. cbn zeta. split.
  - apply retry_loop_sends; assumption.
  - destruct (make_request_progress tm jm kw w) as [Hset _].
    apply same_setting_caching in Hset. revert Hset.
    generalize (final (make_request tm jm kw w)). intros w' Hset.
    unfold caching in Hset. rewrite Hc in Hset.
    destruct (_cache (client w')); [discriminate|reflexivity].
Qed.

Lemma uncached_call_sends_one_request_per_attempt_witness :
  let w := world_of client_main remote_unreachable entropy_half in
  let r := make_request None None payload_main w in
  length (posts (trace (final r))) = 200%nat /\
  outcome r = Raise (ConnectError "https://api.openai.com/v1/completions").
Proof.
  cbn zeta.
  destruct (uncached_call_sends_one_request_per_attempt None None payload_main
              (world_of client_main remote_unreachable entropy_half) eq_refl eq_refl)
    as [Hposts _].
  rewrite Hposts. split; vm_compute; reflexivity.
Defined.

(** ** What a call does to the cache *)

Section LoopLast.
Context {St V : Type}.
Variable random : St -> Q * St.
Variable sleep : Q -> St -> St.
Variable retry_on : exn -> St -> Outcome bool * St.
Variable f : St -> Outcome V * St.
Variable I : St -> Prop.
Hypothesis I_raise : forall s err s1, I s -> f s = (Raise err, s1) -> I s1.
Hypothesis I_classify : forall e s, I s -> I (snd (retry_on e s)).
Hypothesis I_random : forall s, I s -> I (snd (random s)).
Hypothesis I_sleep : forall d s, I s -> I (sleep d s).

(** A call ends with its last attempt: with what that attempt returned
    or with the gate it waits at, or, when it raised, after the
    classification of its error.  An invariant of failed attempts,
    classifications, draws and sleeps holds when that attempt
    starts. *)
Lemma retry_loop_last_attempt n : forall i d s,
  (i + S n = max_tries)%nat ->
  I s ->
  let r := retry_loop random sleep retry_on f (seq i (S n)) d s in
  exists s',
    I s' /\
    match f s' with
    | (Ok v, s1) => outcome r = Ok (Some v) /\ final r = s1
    | (Blocked, s1) => outcome r = Blocked /\ final r = s1
    | (Raise err, s1) =>
        final r = snd (retry_on err s1) /\ forall v, outcome r <> Ok v
    end.
Proof.
  induction n as [|n IH]; intros i d s Hi Hs; cbn zeta.
  - assert (i = max_tries - 1)%nat as -> by (unfold max_tries in *; lia).
    change (seq (max_tries - 1) 1) with [(max_tries - 1)%nat]. cbn [retry_loop].
    exists s. split; [exact Hs|].
    destruct (f s) as [[v|err|] s1]; [now cbn| |now cbn].
    destruct (retry_on err s1) as [[b|e'|] s2]; [|now cbn..].
    rewrite Nat.eqb_refl, orb_true_r. now cbn.
  - change (seq i (S (S n))) with (i :: seq (S i) (S n)). cbn [retry_loop].
    destruct (f s) as [[v|err|] s1] eqn:Hf.
    + exists s. rewrite Hf. now cbn.
    + pose proof (I_raise s err s1 Hs Hf) as H1.
      pose proof (I_classify err s1 H1) as H2.
      destruct (retry_on err s1) as [[b|e'|] s2] eqn:Hc; cbn [snd] in H2.
      * destruct (negb b || (i =? max_tries - 1)%nat).
        { exists s. rewrite Hf, Hc. now cbn. }
        unfold uniform. pose proof (I_random s2 H2) as H3.
        destruct (random s2) as [u s3]. cbn [snd] in H3.
        cbn [outcome final].
        apply (IH (S i)); [lia|apply I_sleep, H3].
      * exists s. rewrite Hf, Hc. now cbn.
      * exists s. rewrite Hf, Hc. now cbn.
    + exists s. rewrite Hf. now cbn.
Qed.
End LoopLast.

Lemma stores_app evs1 evs2 : stores (evs1 ++ evs2) = stores evs1 ++ stores evs2.
Proof.
  induction evs1 as [|e evs1 IH]; [reflexivity|].
  destruct e; cbn; rewrite ?IH; reflexivity.
Qed.

(** The one place where an attempt writes the cache is its end, and
    then it returns what it wrote. *)
Lemma attempt_stores tm jm kw w :
  exists a,
    trace (snd (make_request_once tm jm kw w)) = trace w ++ a /\
    match fst (make_request_once tm jm kw w) with
    | Ok v =>
        stores a = [] \/
        (caching w = true /\
         exists pre, a = pre ++ [CacheStore (orjson_dumps kw) v] /\ stores pre = [])
    | _ => stores a = []
    end.
Proof.
  run_attempt w.
  all: rewrite <- ?app_assoc; cbn [app].
  all: try (exists []; split; [symmetry; apply app_nil_r|]; try left; reflexivity).
  all: eexists; (split; [reflexivity|]).
  all: try reflexivity.
  all: try (left; reflexivity).
  all: right; split; [reflexivity|].
  all: match goal with
       | |- exists pre, ?l = _ /\ _ => exists (removelast l); split; reflexivity
       end.
Qed.

Lemma retry_loop_writes tm jm kw n i d w :
  (i + S n = max_tries)%nat ->
  let r := retry_loop random sleep classify (make_request_once tm jm kw)
             (seq i (S n)) d w in
  exists evs,
    trace (final r) = trace w ++ evs /\
    (stores evs = [] \/
     exists v pre,
       outcome r = Ok (Some v) /\
       caching w = true /\
       evs = pre ++ [CacheStore (orjson_dumps kw) v] /\
       stores pre = []).
Proof.
  intros Hi. cbn zeta.
  destruct (retry_loop_last_attempt random sleep classify (make_request_once tm jm kw)
              (unwritten w)) with (n := n) (i := i) (d := d) (s := w)
    as (w' & [Hset (evs & Htr & Hst)] & Hlast).
  - intros s err s1 [Hset (evs & Htr & Hst)] Hf. split.
    + pose proof (attempt_frame tm jm kw s) as H. rewrite Hf in H.
      eapply same_setting_trans; eassumption.
    + destruct (attempt_stores tm jm kw s) as (a & Ha & Hsa). rewrite Hf in Ha, Hsa.
      cbn [fst snd] in Ha, Hsa. exists (evs ++ a). split.
      * rewrite Ha, Htr. symmetry. apply app_assoc.
      * rewrite stores_app, Hst, Hsa. reflexivity.
  - intros e s [Hset (evs & Htr & Hst)]. split.
    + eapply same_setting_trans; [exact Hset|apply same_setting_classify].
    + exists evs. split; [|exact Hst]. unfold classify.
      now destruct (is_api_error e).
  - intros s [Hset (evs & Htr & Hst)]. split.
    + eapply same_setting_trans; [exact Hset|apply same_setting_random].
    + exists evs. split; [exact Htr|exact Hst].
  - intros d' s [Hset (evs & Htr & Hst)]. split.
    + eapply same_setting_trans; [exact Hset|apply same_setting_sleep].
    + exists (evs ++ [Sleep d']). split.
      * unfold sleep, emit. cbn [trace]. rewrite Htr. symmetry. apply app_assoc.
      * rewrite stores_app, Hst. reflexivity.
  - exact Hi.
  - split; [apply same_setting_refl|]. exists []. split; [symmetry; apply app_nil_r|reflexivity].
  - destruct (attempt_stores tm jm kw w') as (a & Ha & Hsa).
    pose proof (same_setting_caching w w' Hset) as Hcaching.
    revert Hlast.
    generalize (retry_loop random sleep classify (make_request_once tm jm kw)
                  (seq i (S n)) d w).
    intros r Hlast.
    destruct (make_request_once tm jm kw w') as [[v|err|] w1]; cbn [fst snd] in *.
    + destruct Hlast as [Ho ->]. exists (evs ++ a). split.
      * rewrite Ha, Htr. symmetry. apply app_assoc.
      * destruct Hsa as [Hsa|(Hc & pre & -> & Hpre)].
        { left. rewrite stores_app, Hst, Hsa. reflexivity. }
        right. exists v, (evs ++ pre). split; [exact Ho|].
        split; [congruence|]. split; [apply app_assoc|].
        rewrite stores_app, Hst, Hpre. reflexivity.
    + destruct Hlast as [-> _]. exists (evs ++ a). split.
      * unfold classify. destruct (is_api_error err). cbn [snd print trace].
        rewrite Ha, Htr. symmetry. apply app_assoc.
      * left. rewrite stores_app, Hst, Hsa. reflexivity.
    + destruct Hlast as [_ ->]. exists (evs ++ a). split.
      * rewrite Ha, Htr. symmetry. apply app_assoc.
      * left. rewrite stores_app, Hst, Hsa. reflexivity.
Qed.

(** X11: a call writes the cache at most once, and only as its last
    action before it returns: the entry written is the value it
    returns, under the key of the payload as supplied.  So a call that
    raises has written nothing; and a value returned by a caching
    client is in its cache, under that key, when the call returns. *)
Theorem call_stores_only_what_it_returns tm jm kw w :
  let r := make_request tm jm kw w in
  exists evs,
    trace (final r) = trace w ++ evs /\
    (stores evs = [] \/
     exists v pre,
       outcome r = Ok (Some v) /\
       caching w = true /\
       evs = pre ++ [CacheStore (orjson_dumps kw) v] /\
       stores pre = []) /\
    ((forall v, outcome r <> Ok (Some v)) -> stores evs = []) /\
    (forall v, caching w = true -> outcome r = Ok (Some v) ->
       exists c,
         _cache (client (final r)) = Some c /\ c !! orjson_dumps kw = Some v).
Proof.
  cbn zeta.
  destruct (retry_loop_writes tm jm kw 199 0%nat init_delay_s w eq_refl)
    as (evs & Htr & Hst).
  exists evs. split; [exact Htr|]. split; [exact Hst|]. split.
  - intros Hno. destruct Hst as [Hst|(v & pre & Ho & _)]; [exact Hst|].
    now destruct (Hno v).
  - intros v Hc Ho. apply (make_request_stores tm jm kw w v Hc Ho).
Qed.

Example stores_examples :
  let failed :=
    make_request None None payload_main
      (world_of client_caching remote_bad_request entropy_half) in
  let returned := make_request None None payload_main world_cached in
  stores (trace (final failed)) = [] /\
  stores (trace (final returned)) =
    [(orjson_dumps payload_main, JObj (outgoing "gpt-3.5-turbo" None payload_main))].
Proof. split; vm_compute; reflexivity. Qed.

(** ** Waiting at the gate *)

Lemma retry_loop_blocked {St V : Type} (random : St -> Q * St) (sleep : Q -> St -> St)
    (retry_on : exn -> St -> Outcome bool * St) (f : St -> Outcome V * St)
    i rest d s s1 :
  f s = (Blocked, s1) ->
  retry_loop random sleep retry_on f (i :: rest) d s = mkRun Blocked s1 1%nat [].
Proof. intros H. cbn [retry_loop]. now rewrite H. Qed.

(** X12: when the gate has no free slot and the payload is not
    cached (and, on a caching client, can be serialised for the
    lookup), the call waits at the gate in its first attempt: no HTTP
    client is opened, nothing is sent, nothing is slept, and the gate
    and the cache are as they were. *)
Theorem no_free_slot_sends_nothing tm jm kw w :
  free_slot w = false ->
  cached_value w kw = None ->
  (caching w = true -> serializable (JObj kw) = true) ->
  let r := make_request tm jm kw w in
  outcome r = Blocked /\
  attempts r = 1%nat /\
  slept r = [] /\
  trace (final r) = trace w ++ lookup_miss (caching w) (orjson_dumps kw) /\
  posted (final r) = posted w /\
  client (final r) = client w.
Proof.
  intros Hfree Hmiss Hkw. cbn zeta.
  assert (make_request_once tm jm kw w =
          (Blocked,
           if caching w then emit (CacheLookup (orjson_dumps kw) false) w else w))
    as Hattempt.
  { revert Hfree Hmiss Hkw. unfold free_slot, cached_value.
    run_attempt w; intros Hfree Hmiss Hkw; try discriminate; try congruence;
      try (specialize (Hkw eq_refl); congruence); reflexivity. }
  unfold make_request, exponential_backoff, f_retry.
  change (seq 0 max_tries) with (0%nat :: seq 1 199).
  rewrite (retry_loop_blocked random sleep classify (make_request_once tm jm kw)
             _ _ _ _ _ Hattempt).
  cbn [outcome attempts slept final].
  destruct (caching w); cbn [lookup_miss emit trace posted client]; repeat split.
  symmetry. apply app_nil_r.
Qed.

Lemma no_free_slot_sends_nothing_witness :
  let w := world_of client_closed remote_echo entropy_half in
  outcome (make_request None None payload_main w) = Blocked /\
  posts (trace (final (make_request None None payload_main w))) = [].
Proof.
  cbn zeta.
  destruct (no_free_slot_sends_nothing None None payload_main
              (world_of client_closed remote_echo entropy_half) eq_refl eq_refl
              (fun _ => eq_refl))
    as (Ho & _ & _ & Htr & _).
  split; [exact Ho|]. rewrite Htr. reflexivity.
Defined.

(** ** What is sent *)


(** X14: the payload sent differs from the payload supplied in two
    fields at most.  Every field other than [model] and
    [response_format] is sent with the value supplied; [model] is the
    client's model name whatever the caller supplied; [response_format]
    is the JSON-object format when the JSON mode is true, and is
    otherwise as supplied, absent when the caller gave none. *)
Theorem outgoing_changes_two_fields (model : string) (jm : option bool)
    (kw : dict) (k : string) :
  k <> "model"%string ->
  k <> "response_format"%string ->
  dict_get k (outgoing model jm kw) = dict_get k kw /\
  dict_get "model" (outgoing model jm kw) = Some (JStr model) /\
  dict_get "response_format" (outgoing model jm kw) =
    match jm with
    | Some true => Some (JObj [("type"%string, JStr "json_object")])
    | _ => dict_get "response_format" kw
    end.
Proof.
  intros Hm Hf. unfold outgoing.
  destruct jm as [[|]|]; repeat split;
    rewrite ?dict_get_set_eq, ?(dict_get_set_ne k) by assumption;
    rewrite ?dict_get_set_eq, ?(dict_get_set_ne k) by assumption;
    try reflexivity.
  - rewrite dict_get_set_ne by discriminate. apply dict_get_set_eq.
  - apply dict_get_set_ne. discriminate.
  - apply dict_get_set_ne. discriminate.
Qed.

Lemma outgoing_changes_two_fields_witness :
  let sent :=
    outgoing "gpt-3.5-turbo" (Some true)
      (("model"%string, JStr "gpt-4") :: payload_main) in
  dict_get "max_tokens" sent = Some (JInt 9) /\
  dict_get "model" sent = Some (JStr "gpt-3.5-turbo") /\
  dict_get "response_format" sent = Some (JObj [("type"%string, JStr "json_object")]).
Proof.
  cbn zeta.
  destruct (outgoing_changes_two_fields "gpt-3.5-turbo" (Some true)
              (("model"%string, JStr "gpt-4") :: payload_main) "max_tokens")
    as (H1 & H2 & H3).
  - discriminate.
  - discriminate.
  - rewrite H1, H2, H3. repeat split.
Defined.

(** ** A payload that cannot be serialised *)

Lemma attempt_unkeyed tm jm kw w :
  caching w = true ->
  serializable (JObj kw) = false ->
  make_request_once tm jm kw w = (Raise JSONEncodeError, w).
Proof.
  run_attempt w; intros Hc Hkw; try discriminate; try congruence; reflexivity.
Qed.

Lemma retry_loop_unkeyed tm jm kw n : forall i d w,
  (i + S n = max_tries)%nat ->
  caching w = true ->
  serializable (JObj kw) = false ->
  let r := retry_loop random sleep classify (make_request_once tm jm kw)
             (seq i (S n)) d w in
  outcome r = Raise JSONEncodeError /\
  attempts r = S n /\
  length (slept r) = n /\
  trace (final r) = trace w ++ List.map Sleep (slept r).
Proof.
  assert (forall w', classify JSONEncodeError w' =
            (Ok true,
             print [RetryingAfterUnexpectedError JSONEncodeError;
                    Traceback JSONEncodeError] w')) as Hclass by reflexivity.
  induction n as [|n IH]; intros i d w Hi Hc Hkw; cbn zeta.
  - assert (i = max_tries - 1)%nat as -> by (unfold max_tries in *; lia).
    change (seq (max_tries - 1) 1) with [(max_tries - 1)%nat]. cbn [retry_loop].
    rewrite (attempt_unkeyed tm jm kw w Hc Hkw), Hclass, Nat.eqb_refl, orb_true_r.
    cbn [stop outcome attempts slept final length List.map print trace].
    rewrite app_nil_r. repeat split.
  - change (seq i (S (S n))) with (i :: seq (S i) (S n)). cbn [retry_loop].
    rewrite (attempt_unkeyed tm jm kw w Hc Hkw), Hclass.
    destruct (Nat.eqb_spec i (max_tries - 1)) as [->|_];
      [unfold max_tries in Hi; lia|]. cbn [negb orb].
    unfold uniform.
    destruct (random (print [RetryingAfterUnexpectedError JSONEncodeError;
                             Traceback JSONEncodeError] w)) as [u w3] eqn:Hr.
    unfold random in Hr. injection Hr as _ <-.
    match goal with
    | |- context [retry_loop _ _ _ _ (seq (S i) (S n)) ?d' ?w'] =>
        specialize (IH (S i) d' w' ltac:(lia) Hc Hkw); cbn zeta in IH;
        set (r := retry_loop random sleep classify (make_request_once tm jm kw)
                    (seq (S i) (S n)) d' w') in *
    end.
    clearbody r. destruct IH as (Ho & Ha & Hs & Htr).
    cbn [outcome attempts slept final length List.map].
    rewrite Ho, Ha, Hs, Htr.
    cbn [sleep emit print trace]. rewrite <- app_assoc.
    repeat split.
Qed.

(** X16: on a caching client, a payload that [orjson.dumps] refuses
    fails every attempt before the cache is looked up and before
    anything is acquired or sent; the classifier takes the error for
    an unexpected one and says retry, so the call does nothing but
    sleep, 199 times between 200 attempts, and then raises the
    serialisation error. *)
Theorem unserializable_payload_is_never_sent tm jm kw w :
  caching w = true ->
  serializable (JObj kw) = false ->
  let r := make_request tm jm kw w in
  outcome r = Raise JSONEncodeError /\
  attempts r = 200%nat /\
  length (slept r) = 199%nat /\
  trace (final r) = trace w ++ List.map Sleep (slept r).
Proof.
  intros Hc Hkw.
  exact (retry_loop_unkeyed tm jm kw 199 0%nat init_delay_s w eq_refl Hc Hkw).
Qed.

Lemma unserializable_payload_is_never_sent_witness :
  let w := world_of client_caching remote_echo entropy_half in
  let r := make_request None None payload_huge w in
  serializable (JObj payload_huge) = false /\
  outcome r = Raise JSONEncodeError /\
  attempts r = 200%nat /\
  posts (trace (final r)) = [] /\
  lookups (trace (final r)) = 0%nat.
Proof.
  cbn zeta.
  destruct (unserializable_payload_is_never_sent None None payload_huge
              (world_of client_caching remote_echo entropy_half) eq_refl eq_refl)
    as (Ho & Ha & _ & Htr).
  split; [reflexivity|]. split; [exact Ho|]. split; [exact Ha|].
  rewrite Htr. cbn [world_of trace app].
  generalize (slept (make_request None None payload_huge
                       (world_of client_caching remote_echo entropy_half))).
  intros l. split; induction l as [|q l IH]; cbn; auto.
Defined.
